(** * miio-api: the UDP request/response socket ([src/Socket.ts])

    A shallow embedding of the [Socket] class: the dgram socket with its
    "message" listeners and connect state, the timers of the event loop, and
    the promise of every [send] call.  The event loop is a step function over
    the callbacks the runtime may run next.

    What is taken from Node and not from the class:
    - [socket.connect] invokes its callback once, with an error when the
      attempt failed and with nothing when it succeeded; on success dgram
      marks the socket connected one tick before the callback runs;
    - [emit] calls the listeners registered when the datagram arrives, oldest
      first, and an exception from a listener ends the dispatch;
    - [removeListener] removes the youngest instance of a listener;
    - a timer fires at most once, and never after [clearTimeout];
    - [socket.send] on a connected socket invokes its callback once, with
      the error if there is one; on a socket that is not connected
      [socket.send(data, callback)] throws at once;
    - a promise settles once; [await] on a settled promise resumes with its
      outcome;
    - an exception that reaches the event loop ends the process unless the
      host handles it. *)

From stdpp Require Import base list gmap sets strings.
From stdpp Require Import sorting.

#[local] Set Warnings "-clear-no-such-hyp".

(** ** JavaScript values used by the class *)

(** A [Buffer] is a byte string. *)
Definition Buffer : Type := list Byte.byte.

(** An [Error] object, as TypeScript's [Error] interface shows it. *)
Record JsError : Type := MkError { name : string; message : string }.

(** [new Error(msg)] *)
Definition new_Error (msg : string) : JsError :=
  {| name := "Error"; message := msg |}.

(** The error [remoteAddress()] throws on a socket that is not connected. *)
Definition ERR_SOCKET_DGRAM_NOT_CONNECTED : JsError :=
  {| name := "Error"; message := "Not connected" |}.

(** The error [send(data, callback)] throws on a socket that is not
    connected: the callback is taken for the port.  (The wording of the
    message differs between versions of Node.) *)
Definition ERR_SOCKET_BAD_PORT : JsError :=
  {| name := "RangeError"; message := "Port should be > 0 and < 65536" |}.

(** A [number] holding a delay in milliseconds: an integer or [NaN]. *)
Inductive number : Type :=
| Num (z : Z)
| NaN.

(** [if (n)] on a number: [0] and [NaN] are falsy. *)
Definition truthy (n : number) : bool :=
  match n with
  | Num z => negb (z =? 0)%Z
  | NaN => false
  end.

(** The result of evaluating an expression that may throw. *)
Inductive Completion (A : Type) : Type :=
| Normal (a : A)
| Throw (e : JsError).
Arguments Normal {A} a.
Arguments Throw {A} e.

(** [EventEmitter.removeListener]: the most recently added instance of the
    listener is removed, the others stay. *)
Fixpoint remove_last (c : nat) (l : list nat) : list nat :=
  match l with
  | [] => []
  | x :: r =>
      if decide (c ∈ r) then x :: remove_last c r
      else if decide (x = c) then r
      else x :: r
  end.

Section Socket.
Context {ResponseType : Type}.

(** ** Promises and calls *)

(** A promise settles once: [resolve] and [reject] on a settled promise do
    nothing. *)
Inductive Promise : Type :=
| Pending
| Fulfilled (v : ResponseType)
| Rejected (e : JsError).

Definition resolve (v : ResponseType) (p : Promise) : Promise :=
  match p with
  | Pending => Fulfilled v
  | _ => p
  end.

Definition reject (e : JsError) (p : Promise) : Promise :=
  match p with
  | Pending => Rejected e
  | _ => p
  end.

(** One invocation of [send]: its arguments, whether it has passed
    [await this._connect()], its [timer] variable and the promise it
    returned.  Calls are named by the order in which they were made; a call's
    [onMessage] closure and its timer handle carry the call's name. *)
Record Call : Type := MkCall {
  data : Buffer;
  parse : Buffer -> Completion ResponseType;
  match_ : ResponseType -> bool;
  timeout : number;
  started : bool;
  timer : option nat;
  resultPromise : Promise;
}.

Definition set_started (cl : Call) : Call :=
  MkCall (data cl) (parse cl) (match_ cl) (timeout cl) true (timer cl)
         (resultPromise cl).

Definition set_timer (h : nat) (cl : Call) : Call :=
  MkCall (data cl) (parse cl) (match_ cl) (timeout cl) (started cl) (Some h)
         (resultPromise cl).

Definition settle (f : Promise -> Promise) (cl : Call) : Call :=
  MkCall (data cl) (parse cl) (match_ cl) (timeout cl) (started cl) (timer cl)
         (f (resultPromise cl)).

(** ** The socket and the event loop around it *)

Record Socket : Type := MkSocket {
  connected : bool;               (* dgram's connect state *)
  connect_calls : nat;            (* how often [socket.connect] was invoked *)
  connecting : option (list nat); (* the in-flight [_connect] promise and the
                                     calls suspended on it, in await order *)
  listeners : list nat;           (* the "message" listeners, oldest first *)
  timers : gset nat;              (* armed [setTimeout] handles *)
  inflight : gset nat;            (* [socket.send] callbacks still owed *)
  sent : list Buffer;             (* payloads [socket.send] was called with *)
  uncaught : list JsError;        (* exceptions that escaped a listener *)
  calls : list Call;
}.

Definition with_connected (b : bool) (s : Socket) : Socket :=
  MkSocket b (connect_calls s) (connecting s) (listeners s) (timers s)
           (inflight s) (sent s) (uncaught s) (calls s).

Definition with_connect_calls (n : nat) (s : Socket) : Socket :=
  MkSocket (connected s) n (connecting s) (listeners s) (timers s)
           (inflight s) (sent s) (uncaught s) (calls s).

Definition with_connecting (w : option (list nat)) (s : Socket) : Socket :=
  MkSocket (connected s) (connect_calls s) w (listeners s) (timers s)
           (inflight s) (sent s) (uncaught s) (calls s).

Definition with_listeners (l : list nat) (s : Socket) : Socket :=
  MkSocket (connected s) (connect_calls s) (connecting s) l (timers s)
           (inflight s) (sent s) (uncaught s) (calls s).

Definition with_timers (t : gset nat) (s : Socket) : Socket :=
  MkSocket (connected s) (connect_calls s) (connecting s) (listeners s) t
           (inflight s) (sent s) (uncaught s) (calls s).

Definition with_inflight (t : gset nat) (s : Socket) : Socket :=
  MkSocket (connected s) (connect_calls s) (connecting s) (listeners s)
           (timers s) t (sent s) (uncaught s) (calls s).

Definition with_sent (l : list Buffer) (s : Socket) : Socket :=
  MkSocket (connected s) (connect_calls s) (connecting s) (listeners s)
           (timers s) (inflight s) l (uncaught s) (calls s).

Definition with_uncaught (l : list JsError) (s : Socket) : Socket :=
  MkSocket (connected s) (connect_calls s) (connecting s) (listeners s)
           (timers s) (inflight s) (sent s) l (calls s).

Definition with_calls (l : list Call) (s : Socket) : Socket :=
  MkSocket (connected s) (connect_calls s) (connecting s) (listeners s)
           (timers s) (inflight s) (sent s) (uncaught s) l.

(** [new Socket(ip, port)]: [dgram.createSocket("udp4")], not connected. *)
Definition constructor : Socket :=
  MkSocket false 0 None [] ∅ ∅ [] [] [].

Definition update_call (c : nat) (f : Call -> Call) (s : Socket) : Socket :=
  with_calls (alter f c (calls s)) s.

(** [this.socket.on("message", onMessage)] *)
Definition on (c : nat) (s : Socket) : Socket :=
  with_listeners (listeners s ++ [c]) s.

(** [this.socket.removeListener("message", onMessage)] *)
Definition removeListener (c : nat) (s : Socket) : Socket :=
  with_listeners (remove_last c (listeners s)) s.

(** [timer = setTimeout(..., timeout)] in call [c] *)
Definition setTimeout (c : nat) (s : Socket) : Socket :=
  update_call c (set_timer c) (with_timers ({[c]} ∪ timers s) s).

(** [clearTimeout(h)] *)
Definition clearTimeout (h : nat) (s : Socket) : Socket :=
  with_timers (timers s ∖ {[h]}) s.

(** [if (timer) { clearTimeout(timer); }] *)
Definition clear_timer_of (cl : Call) (s : Socket) : Socket :=
  match timer cl with
  | Some h => clearTimeout h s
  | None => s
  end.

(** ** [send], lines 79-114: the promise executor and its three callbacks *)

(** [onMessage], lines 83-93.  The second component is the exception that
    leaves the listener, if any: [parse] is called outside any [try]. *)
Definition onMessage (c : nat) (msg : Buffer) (s : Socket)
  : Socket * option JsError :=
  match calls s !! c with
  | None => (s, None)
  | Some cl =>
      match parse cl msg with
      | Throw e => (s, Some e)
      | Normal parsed =>
          if match_ cl parsed then
            let s1 := clear_timer_of cl s in
            let s2 := removeListener c s1 in
            (update_call c (settle (resolve parsed)) s2, None)
          else (s, None)
      end
  end.

(** The timer callback, lines 96-99. *)
Definition onTimeout (c : nat) (s : Socket) : Socket :=
  update_call c (settle (reject (new_Error "Socket timeout")))
              (removeListener c s).

(** The callback given to [socket.send], lines 104-112. *)
Definition sendCallback (c : nat) (err : option JsError) (s : Socket)
  : Socket :=
  match err with
  | Some e =>
      match calls s !! c with
      | None => s
      | Some cl =>
          let s1 := clear_timer_of cl s in
          let s2 := removeListener c s1 in
          update_call c (settle (reject e)) s2
      end
  | None => s
  end.

(** [this.socket.send(data, callback)].  On a connected socket the payload
    is taken and the socket owes the callback one invocation, which reports
    whether the datagram could be sent.  On a socket that is not connected
    the call throws and no callback is owed. *)
Definition socket_send (c : nat) (d : Buffer) (s : Socket)
  : Socket * option JsError :=
  let s1 := with_sent (sent s ++ [d]) s in
  if connected s then (with_inflight ({[c]} ∪ inflight s) s1, None)
  else (s1, Some ERR_SOCKET_BAD_PORT).

(** The part of [send] after the connect step, lines 79-116: arm the timer
    when [timeout] is truthy, register the listener, transmit.  An exception
    thrown inside the promise executor rejects the promise; what the
    executor did before stays done. *)
Definition executor (c : nat) (s : Socket) : Socket :=
  match calls s !! c with
  | None => s
  | Some cl =>
      let s0 := update_call c set_started s in
      let s1 := if truthy (timeout cl) then setTimeout c s0 else s0 in
      let s2 := on c s1 in
      match socket_send c (data cl) s2 with
      | (s3, None) => s3
      | (s3, Some e) => update_call c (settle (reject e)) s3
      end
  end.

(** ** The connect step *)

(** [this.socket.remoteAddress()] throws unless the socket is connected. *)
Definition remoteAddress (s : Socket) : Completion unit :=
  if connected s then Normal tt else Throw ERR_SOCKET_DGRAM_NOT_CONNECTED.

(** [_isConnected], lines 27-34 *)
Definition _isConnected (s : Socket) : bool :=
  match remoteAddress s with
  | Normal _ => true
  | Throw _ => false
  end.

(** The body of [_connect], lines 46-52: one [socket.connect], and a new
    pending promise nobody awaits yet. *)
Definition _connect_body (s : Socket) : Socket :=
  with_connecting (Some []) (with_connect_calls (S (connect_calls s)) s).

(** Modelled from the spec: the decorator [reusePromise] of [./utils], whose
    source is not part of the files at hand.  While the promise of an earlier
    invocation is in flight the method body is not run again and that same
    promise is returned; the handle is dropped when the promise settles (see
    [settle_connect]). *)
Definition reusePromise (method : Socket -> Socket) (s : Socket) : Socket :=
  match connecting s with
  | Some _ => s
  | None => method s
  end.

(** [_connect] as decorated, line 45 *)
Definition _connect (s : Socket) : Socket := reusePromise _connect_body s.

(** [await] on the in-flight connect promise suspends call [c]. *)
Definition await_connect (c : nat) (s : Socket) : Socket :=
  match connecting s with
  | Some ws => with_connecting (Some (ws ++ [c])) s
  | None => s
  end.

(** The connect promise settles: every suspended call resumes in await
    order, past the [await] on fulfilment, with the rejection as the
    outcome of its own promise otherwise. *)
Definition settle_connect (r : Completion unit) (s : Socket) : Socket :=
  match connecting s with
  | None => s
  | Some ws =>
      let s0 := with_connecting None s in
      match r with
      | Normal _ => foldl (fun s c => executor c s) s0 ws
      | Throw e =>
          foldl (fun s c => update_call c (settle (reject e)) s) s0 ws
      end
  end.

(** The callback given to [socket.connect], lines 48-50: [() => resolve()].
    Whatever dgram passes to it is dropped. *)
Definition connectCallback (err : option JsError) (s : Socket) : Socket :=
  settle_connect (Normal tt) s.

(** dgram has connected the socket: it marks it connected, and queues the
    "connect" event for the next tick. *)
Definition connect_marked (s : Socket) : Socket :=
  match connecting s with
  | None => s
  | Some _ => with_connected true s
  end.

(** The callback of the attempt in flight runs: with no error, a tick after
    dgram has marked the socket connected; with the error of the attempt,
    on a socket that is not connected. *)
Definition connect_done (err : option JsError) (s : Socket) : Socket :=
  match connecting s with
  | None => s
  | Some _ =>
      match err, connected s with
      | None, true => connectCallback err s
      | Some _, false => connectCallback err s
      | _, _ => s
      end
  end.

(** [send], lines 69-117.  [timeout_arg] is [None] when the argument is
    omitted. *)
Definition send (d : Buffer) (p : Buffer -> Completion ResponseType)
    (m : ResponseType -> bool) (timeout_arg : option number) (s : Socket)
  : Socket :=
  let timeout := default (Num 5000) timeout_arg in
  let c := length (calls s) in
  let s0 := with_calls (calls s ++ [MkCall d p m timeout false None Pending]) s in
  if _isConnected s0 then executor c s0
  else await_connect c (_connect s0).

(** ** The event loop *)

(** [emit("message", msg)]: the listeners registered when the datagram
    arrives are called oldest first; an exception from one of them ends the
    dispatch. *)
Fixpoint emit_to (ls : list nat) (msg : Buffer) (s : Socket)
  : Socket * option JsError :=
  match ls with
  | [] => (s, None)
  | c :: r =>
      match onMessage c msg s with
      | (s', Some e) => (s', Some e)
      | (s', None) => emit_to r msg s'
      end
  end.

Definition emit (msg : Buffer) (s : Socket) : Socket * option JsError :=
  emit_to (listeners s) msg s.

(** What the runtime may do next: the program calls [send]; dgram connects
    the socket; the callback of [socket.connect] runs; a datagram arrives;
    a timer fires; the callback of a [socket.send] runs.  An event that
    cannot happen in a state (a callback nobody is owed, a timer that is not
    armed) leaves the state as it is. *)
Inductive Event : Type :=
| EvSend (d : Buffer) (p : Buffer -> Completion ResponseType)
         (m : ResponseType -> bool) (timeout_arg : option number)
| EvConnected
| EvConnect (err : option JsError)
| EvMessage (msg : Buffer)
| EvTimer (h : nat)
| EvSendDone (c : nat) (err : option JsError).

Definition step (s : Socket) (ev : Event) : Socket :=
  match ev with
  | EvSend d p m t => send d p m t s
  | EvConnected => connect_marked s
  | EvConnect err => connect_done err s
  | EvMessage msg =>
      match emit msg s with
      | (s', Some e) => with_uncaught (uncaught s' ++ [e]) s'
      | (s', None) => s'
      end
  | EvTimer h =>
      if decide (h ∈ timers s)
      then onTimeout h (with_timers (timers s ∖ {[h]}) s)
      else s
  | EvSendDone c err =>
      if decide (c ∈ inflight s)
      then sendCallback c err (with_inflight (inflight s ∖ {[c]}) s)
      else s
  end.

Definition run (s : Socket) (evs : list Event) : Socket := foldl step s evs.

(** ** The invariant of the event loop *)

(** A call whose listener or timer is in place is pending, unless
    [socket.send] threw when the call started: such a call was rejected with
    that error at once, and no send callback is owed to it. *)
Definition live_or_refused (fs : gset nat) (c : nat) (cl : Call) : Prop :=
  resultPromise cl = Pending
  ∨ (resultPromise cl = Rejected ERR_SOCKET_BAD_PORT ∧ c ∉ fs).

(** What holds of the listeners [ls], the armed timers [ts], the owed send
    callbacks [fs] and the calls [cs], given the calls [ws] that have not
    passed the connect step yet. *)
Record InvC (ws ls : list nat) (ts fs : gset nat) (cs : list Call) : Prop :=
  MkInvC {
  inv_nodup : NoDup ls;
  inv_listener : ∀ c, c ∈ ls →
    ∃ cl, cs !! c = Some cl ∧ started cl = true ∧ live_or_refused fs c cl;
  inv_timer : ∀ h, h ∈ ts →
    ∃ cl, cs !! h = Some cl ∧ started cl = true ∧ live_or_refused fs h cl
          ∧ truthy (timeout cl) = true;
  inv_pending : ∀ c cl, cs !! c = Some cl →
    started cl = true → resultPromise cl = Pending →
    c ∈ ls ∧ (truthy (timeout cl) = true → c ∈ ts);
  inv_timer_var : ∀ c cl, cs !! c = Some cl →
    timer cl = if started cl && truthy (timeout cl) then Some c else None;
  inv_waiting : ∀ c cl, cs !! c = Some cl →
    started cl = false → resultPromise cl = Pending ∧ c ∈ ws;
  inv_inflight : ∀ c, c ∈ fs → ∃ cl, cs !! c = Some cl ∧ started cl = true;
  inv_ws_nodup : NoDup ws;
  inv_ws : ∀ c, c ∈ ws → ∃ cl, cs !! c = Some cl ∧ started cl = false;
}.

Definition InvW (ws : list nat) (s : Socket) : Prop :=
  InvC ws (listeners s) (timers s) (inflight s) (calls s).

Definition waiting (s : Socket) : list nat := default [] (connecting s).

Definition Inv (s : Socket) : Prop := InvW (waiting s) s.

(** A call's promise in a state; [None] when there is no such call. *)
Definition promise_of (c : nat) (s : Socket) : option Promise :=
  resultPromise <$> calls s !! c.

(** The error a timed-out call fails with, line 98. *)
Definition timeout_error : JsError := new_Error "Socket timeout".

(** How one event may settle a started, pending call [cl] named [c]. *)
Inductive settles (s : Socket) (c : nat) (cl : Call) : Event → Promise → Prop :=
| settles_match msg v :
    parse cl msg = Normal v → match_ cl v = true →
    settles s c cl (EvMessage msg) (Fulfilled v)
| settles_timeout :
    c ∈ timers s → settles s c cl (EvTimer c) (Rejected timeout_error)
| settles_transport e :
    c ∈ inflight s → settles s c cl (EvSendDone c (Some e)) (Rejected e).

(** The record of a call once it has passed the connect step. *)
Definition start_call (c : nat) (cl : Call) : Call :=
  MkCall (data cl) (parse cl) (match_ cl) (timeout cl) true
         (if truthy (timeout cl) then Some c else None) (resultPromise cl).

(** The record of a call whose [socket.send] threw when it started. *)
Definition refused_call (c : nat) (cl : Call) : Call :=
  settle (reject ERR_SOCKET_BAD_PORT) (start_call c cl).

(** The record of a call once [executor] has run for it in state [s]. *)
Definition started_record (s : Socket) (c : nat) (cl : Call) : Call :=
  if connected s then start_call c cl else refused_call c cl.

(** What one event may do to the record of call [c]. *)
Inductive call_step (s : Socket) (ev : Event) (c : nat) (cl : Call)
  : Call → Prop :=
| call_same : call_step s ev c cl cl
| call_start : started cl = false → call_step s ev c cl (start_call c cl)
| call_refused err :
    started cl = false → ev = EvConnect (Some err) →
    call_step s ev c cl (refused_call c cl)
| call_settle p' :
    started cl = true → resultPromise cl = Pending → settles s c cl ev p' →
    call_step s ev c cl (settle (λ _, p') cl).

(** [cl'] is a later record of the call [cl]: the arguments are the same,
    and a call that has passed the connect step stays past it. *)
Definition call_evolves (cl cl' : Call) : Prop :=
  data cl' = data cl ∧ parse cl' = parse cl ∧ match_ cl' = match_ cl
  ∧ timeout cl' = timeout cl ∧ (started cl = true → started cl' = true).


(** The arguments of one [send] call, and the event of making it. *)
Definition SendArgs : Type :=
  Buffer * (Buffer → Completion ResponseType) * (ResponseType → bool)
  * option number.

Definition send_event (a : SendArgs) : Event :=
  match a with (d, p, m, t) => EvSend d p m t end.

(** ** The host

    What the host does with an exception that reaches the event loop: Node
    ends the process, unless a handler for [uncaughtException] keeps it
    running. *)
Inductive HostPolicy : Type :=
| ExitOnUncaught
| KeepRunning.

Definition exited (policy : HostPolicy) (s : Socket) : bool :=
  match policy, uncaught s with
  | ExitOnUncaught, _ :: _ => true
  | _, _ => false
  end.

(** The next event reaches the event loop unless the process has ended. *)
Definition deliver (policy : HostPolicy) (s : Socket) (ev : Event) : Socket :=
  if exited policy s then s else step s ev.

Definition run_host (policy : HostPolicy) (s : Socket) (evs : list Event)
  : Socket :=
  foldl (deliver policy) s evs.

(** How many calls have passed the connect step. *)
Definition started_calls (s : Socket) : nat :=
  length (filter (λ cl, started cl = true) (calls s)).

(** The payloads of the calls [ws], in that order. *)
Definition payloads (s : Socket) (ws : list nat) : list Buffer :=
  omap (λ c, data <$> calls s !! c) ws.

End Socket.

(** ** A sample protocol

    Datagrams carry the id of the request they answer in their first byte;
    an empty datagram is malformed. *)

Definition parseEcho (msg : Buffer) : Completion nat :=
  match msg with
  | [] => Throw (new_Error "empty datagram")
  | b :: _ => Normal (Byte.to_nat b)
  end.

(** [v => v.id == k] *)
Definition has_id (k : nat) (v : nat) : bool := Nat.eqb v k.

Definition payload_A : Buffer := [Byte.x01].
Definition payload_B : Buffer := [Byte.x02].

Definition EPERM : JsError := {| name := "Error"; message := "send EPERM" |}.
Definition ENETUNREACH : JsError :=
  {| name := "Error"; message := "connect ENETUNREACH" |}.

(** One call with the default timeout, on a socket that connects. *)
Definition one_call : list (@Event nat) :=
  [EvSend payload_A parseEcho (has_id 1) None; EvConnected; EvConnect None].

Definition call_A : @Call nat :=
  MkCall payload_A parseEcho (has_id 1) (Num 5000) true (Some 0) Pending.



(** One call with a timeout of 1 ms whose timer fires before the send
    callback runs. *)
Definition timed_out_call : list (@Event nat) :=
  [EvSend payload_A parseEcho (has_id 1) (Some (Num 1)); EvConnected;
   EvConnect None; EvTimer 0].

(** One call with the timeout disabled, on a socket whose connect fails. *)
Definition refused_send : list (@Event nat) :=
  [EvSend payload_A parseEcho (has_id 1) (Some (Num 0));
   EvConnect (Some ENETUNREACH)].

(** Two calls made one after the other on a new socket. *)
Definition two_sends : list (@SendArgs nat) :=
  [(payload_A, parseEcho, has_id 1, None);
   (payload_B, parseEcho, has_id 2, Some (Num 100))].

(** Two calls in flight on a connected socket. *)
Definition two_calls : list (@Event nat) :=
  (send_event <$> two_sends) ++ [EvConnected; EvConnect None].

Definition call_B : @Call nat :=
  MkCall payload_B parseEcho (has_id 2) (Num 100) true (Some 1) Pending.

(** * Proofs *)

(** Closed goals are settled by evaluation. *)
Ltac by_computation := apply (bool_decide_unpack _); vm_compute; exact I.
Ltac by_evaluation := vm_compute; reflexivity.

(** ** [remove_last] *)

Lemma remove_last_elem_of c c' l : c' ∈ remove_last c l → c' ∈ l.
Proof.
  induction l as [|x r IH]; simpl; [done|].
  destruct (decide (c ∈ r)); [|destruct (decide (x = c))]; set_solver.
Qed.

Lemma remove_last_keeps c c' l : c' ≠ c → c' ∈ l → c' ∈ remove_last c l.
Proof.
  intros Hne. induction l as [|x r IH]; simpl; [done|].
  destruct (decide (c ∈ r)); [|destruct (decide (x = c))]; set_solver.
Qed.

Lemma remove_last_NoDup c l : NoDup l → NoDup (remove_last c l).
Proof.
  induction 1 as [|x r Hx Hr IH]; simpl; [constructor|].
  destruct (decide (c ∈ r)); [|destruct (decide (x = c))];
    try done; try (by constructor).
  constructor; [|done]. intros Hin. apply Hx. by eapply remove_last_elem_of.
Qed.

Lemma remove_last_gone c l : NoDup l → c ∉ remove_last c l.
Proof.
  induction 1 as [|x r Hx Hr IH]; simpl; [set_solver|].
  destruct (decide (c ∈ r)); [|destruct (decide (x = c))]; subst; set_solver.
Qed.

(** ** Counting under [alter] *)

Lemma filter_alter_same {A} (P : A → Prop) `{∀ x, Decision (P x)}
    (f : A → A) (l : list A) : ∀ i,
  (∀ x, P (f x) ↔ P x) →
  length (filter P (alter f i l)) = length (filter P l).
Proof.
  induction l as [|x l IH]; intros i Hf; [done|].
  destruct i as [|i]; simpl.
  - rewrite !filter_cons.
    destruct (decide (P (f x))), (decide (P x)); naive_solver.
  - rewrite !filter_cons. specialize (IH i Hf).
    destruct (decide (P x)); simpl; by rewrite <- IH.
Qed.

Lemma filter_alter_new {A} (P : A → Prop) `{∀ x, Decision (P x)}
    (f : A → A) (l : list A) : ∀ i x,
  l !! i = Some x → ¬ P x → P (f x) →
  length (filter P (alter f i l)) = S (length (filter P l)).
Proof.
  induction l as [|y l IH]; intros i x Hl Hn Hp; [done|].
  destruct i as [|i]; simpl in *.
  - simplify_eq. rewrite !filter_cons.
    destruct (decide (P (f x))), (decide (P x)); naive_solver.
  - rewrite !filter_cons. specialize (IH i x Hl Hn Hp).
    destruct (decide (P y)); simpl; by rewrite <- IH.
Qed.

Section Proofs.
Context {ResponseType : Type}.
Implicit Types (s : @Socket ResponseType) (cl : @Call ResponseType)
  (cs : list (@Call ResponseType)) (p : @Promise ResponseType)
  (ev : @Event ResponseType) (evs : list (@Event ResponseType))
  (c h : nat) (ws ls : list nat) (ts fs : gset nat) (msg : Buffer)
  (e : JsError) (v : ResponseType).

(** ** Field updates of a call *)

Lemma settle_id f cl : f (resultPromise cl) = resultPromise cl → settle f cl = cl.
Proof. destruct cl; unfold settle; simpl; intros ->; done. Qed.

Lemma resolve_settled v p : p ≠ Pending → resolve v p = p.
Proof. by destruct p. Qed.

Lemma reject_settled e p : p ≠ Pending → reject e p = p.
Proof. by destruct p. Qed.

(** ** The invariant under the primitive operations *)

Lemma InvC_new_call ws ls ts fs cs d pf m t :
  InvC ws ls ts fs cs →
  InvC (ws ++ [length cs]) ls ts fs (cs ++ [MkCall d pf m t false None Pending]).
Proof.
  intros [H1 H2 H3 H4 H5 H6 H7 H8 H9].
  assert (Hlt : ∀ c cl, cs !! c = Some cl →
    (cs ++ [MkCall d pf m t false None Pending]) !! c = Some cl).
  { intros c cl Hc. apply lookup_snoc_Some. left. split; [|done].
    by eapply lookup_lt_Some. }
  split; try done.
  - intros c Hc. destruct (H2 c Hc) as (cl & ? & ?). eauto.
  - intros c Hc. destruct (H3 c Hc) as (cl & ? & ?). eauto.
  - intros c cl Hc. apply lookup_snoc_Some in Hc as [[_ Hc]|[-> <-]]; [eauto|done].
  - intros c cl Hc. apply lookup_snoc_Some in Hc as [[_ Hc]|[-> <-]]; [eauto|done].
  - intros c cl Hc Hs. apply lookup_snoc_Some in Hc as [[_ Hc]|[-> <-]].
    + destruct (H6 c cl Hc Hs). set_solver.
    + set_solver.
  - intros c Hc. destruct (H7 c Hc) as (cl & ? & ?). eauto.
  - apply NoDup_app. split_and!; [done| |apply NoDup_singleton].
    intros c Hc Hin. apply list_elem_of_singleton in Hin as ->.
    destruct (H9 _ Hc) as (cl & Hl & _). apply lookup_lt_Some in Hl. lia.
  - intros c Hc. apply elem_of_app in Hc as [Hc|Hc].
    + destruct (H9 c Hc) as (cl & ? & ?). eauto.
    + apply list_elem_of_singleton in Hc as ->. eexists.
      split; [apply lookup_snoc_Some; by right|done].
Qed.

Lemma live_or_refused_mono fs fs' c cl :
  (c ∈ fs' → c ∈ fs) → live_or_refused fs c cl → live_or_refused fs' c cl.
Proof. intros Hsub [?|[? ?]]; [by left|right; auto]. Qed.

Lemma InvC_inflight_subseteq ws ls ts fs fs' cs :
  fs' ⊆ fs → InvC ws ls ts fs cs → InvC ws ls ts fs' cs.
Proof.
  intros Hsub [H1 H2 H3 H4 H5 H6 H7 H8 H9]. split; try done.
  - intros c Hc. destruct (H2 c Hc) as (cl & ? & ? & Hl). exists cl.
    split_and!; [done..|]. eapply live_or_refused_mono; [|done]. set_solver.
  - intros c Hc. destruct (H3 c Hc) as (cl & ? & ? & Hl & ?). exists cl.
    split_and!; [done..| |done]. eapply live_or_refused_mono; [|done]. set_solver.
  - set_solver.
Qed.

(** The order of the suspended calls does not matter to the invariant. *)
Lemma InvC_perm ws ws' ls ts fs cs :
  ws ≡ₚ ws' → InvC ws ls ts fs cs → InvC ws' ls ts fs cs.
Proof.
  intros Hp [H1 H2 H3 H4 H5 H6 H7 H8 H9]. split; try done.
  - intros c cl Hc Hs. destruct (H6 c cl Hc Hs). split; [done|]. by rewrite <- Hp.
  - by rewrite <- Hp.
  - intros c Hc. apply H9. by rewrite Hp.
Qed.

(** A callback that settles call [c]: its listener goes, its timer is not
    armed afterwards, its promise is settled by [f] if it was pending. *)
Lemma InvC_finish ws ls ts ts' fs cs c cl f :
  InvC ws ls ts fs cs →
  cs !! c = Some cl → started cl = true →
  f Pending ≠ Pending → (∀ p, p ≠ Pending → f p = p) →
  c ∉ ts' → (∀ h, h ∈ ts' ↔ h ∈ ts ∧ h ≠ c) →
  InvC ws (remove_last c ls) ts' fs (alter (settle f) c cs).
Proof.
  intros [H1 H2 H3 H4 H5 H6 H7 H8 H9] Hc Hst Hf1 Hf2 Hts1 Hts2.
  assert (Hne : ∀ c', c' ≠ c → alter (settle f) c cs !! c' = cs !! c').
  { intros c' Hne. by apply list_lookup_alter_ne. }
  assert (Heq : alter (settle f) c cs !! c = Some (settle f cl)).
  { by rewrite list_lookup_alter_eq, Hc. }
  assert (Hset : resultPromise (settle f cl) ≠ Pending).
  { simpl. destruct (resultPromise cl) eqn:E; [done| |]; rewrite Hf2; done. }
  split.
  - by apply remove_last_NoDup.
  - intros c' Hc'. destruct (decide (c' = c)) as [->|Hn].
    + by apply remove_last_gone in Hc'.
    + rewrite Hne by done. apply H2. by eapply remove_last_elem_of.
  - intros h Hh. apply Hts2 in Hh as [Hh Hn]. rewrite Hne by done. by apply H3.
  - intros c' cl' Hl Hs Hp. destruct (decide (c' = c)) as [->|Hn].
    + rewrite Heq in Hl. by simplify_eq.
    + rewrite Hne in Hl by done. destruct (H4 c' cl' Hl Hs Hp) as [Ha Hb].
      split; [by apply remove_last_keeps|]. intros Ht. apply Hts2. auto.
  - intros c' cl' Hl. destruct (decide (c' = c)) as [->|Hn].
    + rewrite Heq in Hl. simplify_eq. simpl. by apply H5.
    + rewrite Hne in Hl by done. by apply H5.
  - intros c' cl' Hl Hs. destruct (decide (c' = c)) as [->|Hn].
    + rewrite Heq in Hl. simplify_eq. simpl in Hs. congruence.
    + rewrite Hne in Hl by done. by apply H6.
  - intros c' Hc'. destruct (decide (c' = c)) as [->|Hn].
    + rewrite Heq. eauto.
    + rewrite Hne by done. by apply H7.
  - done.
  - intros c' Hc'. destruct (H9 c' Hc') as (cl' & Hl & Hs).
    destruct (decide (c' = c)) as [->|Hn]; [congruence|].
    rewrite Hne by done. eauto.
Qed.

(** Call [c] passes the connect step: it is started, its listener is the
    youngest, its timer is armed when its timeout is truthy. *)
Lemma InvC_start ws ls ts ts' fs fs' cs cs' c cl cl' :
  InvC (c :: ws) ls ts fs cs →
  cs !! c = Some cl → cs' !! c = Some cl' →
  (∀ c', c' ≠ c → cs' !! c' = cs !! c') →
  started cl' = true → timeout cl' = timeout cl →
  (fs' = {[c]} ∪ fs ∧ resultPromise cl' = resultPromise cl)
  ∨ (fs' = fs ∧ resultPromise cl' = Rejected ERR_SOCKET_BAD_PORT) →
  timer cl' = (if truthy (timeout cl) then Some c else None) →
  (∀ h, h ∈ ts' ↔ h ∈ ts ∨ (h = c ∧ truthy (timeout cl) = true)) →
  InvC ws (ls ++ [c]) ts' fs' cs'.
Proof.
  intros [H1 H2 H3 H4 H5 H6 H7 H8 H9] Hc Hc' Hne Hst Hto Hrp Htm Hts.
  apply NoDup_cons in H8 as [Hcws Hws].
  assert (Hns : started cl = false).
  { destruct (H9 c) as (cl0 & ? & ?); [set_solver|congruence]. }
  assert (Hp : resultPromise cl = Pending) by (by eapply H6).
  assert (Hcls : c ∉ ls).
  { intros Hin. destruct (H2 c Hin) as (cl0 & ? & ? & ?). congruence. }
  assert (Hcts : c ∉ ts).
  { intros Hin. destruct (H3 c Hin) as (cl0 & ? & ? & ?). congruence. }
  assert (Hcfs : c ∉ fs).
  { intros Hin. destruct (H7 c Hin) as (cl0 & ? & ?). congruence. }
  assert (Hfs : ∀ c', c' ≠ c → c' ∈ fs' → c' ∈ fs).
  { intros c' Hn. destruct Hrp as [[-> _]|[-> _]]; set_solver. }
  assert (Hlr : live_or_refused fs' c cl').
  { destruct Hrp as [[-> Hr]|[-> Hr]]; [left; congruence|by right]. }
  split.
  - apply NoDup_app. split_and!; [done|set_solver|apply NoDup_singleton].
  - intros c' Hin. apply elem_of_app in Hin as [Hin|Hin].
    + assert (c' ≠ c) by set_solver. rewrite Hne by done.
      destruct (H2 c' Hin) as (cl0 & ? & ? & ?). exists cl0.
      split_and!; [done..|]. eapply live_or_refused_mono; [|done]. auto.
    + apply list_elem_of_singleton in Hin as ->. exists cl'. done.
  - intros h Hh. apply Hts in Hh as [Hh|[-> Ht]].
    + assert (h ≠ c) by set_solver. rewrite Hne by done.
      destruct (H3 h Hh) as (cl0 & ? & ? & ? & ?). exists cl0.
      split_and!; [done..| |done]. eapply live_or_refused_mono; [|done]. auto.
    + exists cl'. split_and!; [done|done|done|congruence].
  - intros c' cl0 Hl Hs Hpe. destruct (decide (c' = c)) as [->|Hn].
    + simplify_eq. split; [set_solver|]. intros Ht. apply Hts. right.
      split; [done|congruence].
    + rewrite Hne in Hl by done. destruct (H4 c' cl0 Hl Hs Hpe).
      split; [set_solver|]. intros Ht. apply Hts. auto.
  - intros c' cl0 Hl. destruct (decide (c' = c)) as [->|Hn].
    + simplify_eq. rewrite Htm, Hst, Hto. done.
    + rewrite Hne in Hl by done. by apply H5.
  - intros c' cl0 Hl Hs. destruct (decide (c' = c)) as [->|Hn].
    + simplify_eq. congruence.
    + rewrite Hne in Hl by done. destruct (H6 c' cl0 Hl Hs). set_solver.
  - intros c' Hin. destruct (decide (c' = c)) as [->|Hn]; [eauto|].
    rewrite Hne by done. apply H7. auto.
  - done.
  - intros c' Hin. destruct (decide (c' = c)) as [->|Hn]; [done|].
    rewrite Hne by done. apply H9. set_solver.
Qed.

(** ** The invariant under the callbacks *)

Lemma clear_timer_of_timers ws s c cl h :
  InvW ws s → calls s !! c = Some cl →
  h ∈ timers (clear_timer_of cl s) ↔ h ∈ timers s ∧ h ≠ c.
Proof.
  intros HI Hc. unfold clear_timer_of.
  pose proof (inv_timer_var _ _ _ _ _ HI c cl Hc) as Ht.
  destruct (timer cl) as [h'|] eqn:E.
  - destruct (started cl && truthy (timeout cl)); simplify_eq. simpl. set_solver.
  - split; [|by intros []]. intros Hh. split; [done|]. intros ->.
    destruct (inv_timer _ _ _ _ _ HI c Hh) as (cl0 & ? & Hs & _ & Htr).
    simplify_eq. rewrite Hs, Htr in Ht. done.
Qed.

Lemma clear_timer_of_frame cl s :
  listeners (clear_timer_of cl s) = listeners s
  ∧ calls (clear_timer_of cl s) = calls s
  ∧ inflight (clear_timer_of cl s) = inflight s
  ∧ connecting (clear_timer_of cl s) = connecting s
  ∧ connected (clear_timer_of cl s) = connected s.
Proof. unfold clear_timer_of. by destruct (timer cl). Qed.

Lemma finish_inv ws s c cl f :
  InvW ws s → calls s !! c = Some cl → started cl = true →
  f Pending ≠ Pending → (∀ p, p ≠ Pending → f p = p) →
  InvW ws (update_call c (settle f) (removeListener c (clear_timer_of cl s))).
Proof.
  intros HI Hc Hs Hf1 Hf2. unfold InvW; simpl.
  destruct (clear_timer_of_frame cl s) as (-> & -> & -> & _).
  eapply InvC_finish; eauto.
  - intros Hin. by eapply clear_timer_of_timers in Hin as [_ ?].
  - intros h. by eapply clear_timer_of_timers.
Qed.

Lemma onMessage_inv ws s c msg :
  InvW ws s → (∀ cl, calls s !! c = Some cl → started cl = true) →
  InvW ws (onMessage c msg s).1.
Proof.
  intros HI Hs. unfold onMessage.
  destruct (calls s !! c) as [cl|] eqn:Hc; [|done].
  destruct (parse cl msg) as [parsed|e]; [|done].
  destruct (match_ cl parsed); [|done]. simpl.
  apply finish_inv; auto using resolve_settled.
Qed.

Lemma onTimeout_inv ws s h :
  InvW ws s → h ∈ timers s →
  InvW ws (onTimeout h (with_timers (timers s ∖ {[h]}) s)).
Proof.
  intros HI Hh. destruct (inv_timer _ _ _ _ _ HI h Hh) as (cl & Hc & Hs & _).
  unfold onTimeout, InvW; simpl.
  eapply InvC_finish; eauto using reject_settled; set_solver.
Qed.

Lemma sendCallback_inv ws s c err :
  InvW ws s → (∀ cl, calls s !! c = Some cl → started cl = true) →
  InvW ws (sendCallback c err s).
Proof.
  intros HI Hs. unfold sendCallback. destruct err as [e|]; [|done].
  destruct (calls s !! c) as [cl|] eqn:Hc; [|done].
  apply finish_inv; auto using reject_settled.
Qed.

(** [executor] by cases: whether the socket takes the payload. *)
Lemma executor_unfold s c cl :
  calls s !! c = Some cl →
  executor c s =
    let s2 := with_sent (sent s ++ [data cl])
                (on c (if truthy (timeout cl)
                       then setTimeout c (update_call c set_started s)
                       else update_call c set_started s)) in
    if connected s then with_inflight ({[c]} ∪ inflight s) s2
    else update_call c (settle (reject ERR_SOCKET_BAD_PORT)) s2.
Proof.
  intros Hc. unfold executor, socket_send. rewrite Hc.
  destruct (truthy (timeout cl)), (connected s) eqn:Hcn; simpl;
    rewrite Hcn; reflexivity.
Qed.

Lemma executor_inv ws s c : InvW (c :: ws) s → InvW ws (executor c s).
Proof.
  intros HI.
  destruct (inv_ws _ _ _ _ _ HI c) as (cl & Hc & Hs); [set_solver|].
  destruct (inv_waiting _ _ _ _ _ HI c cl Hc Hs) as [Hp _].
  pose proof (inv_timer_var _ _ _ _ _ HI c cl Hc) as Htv.
  rewrite Hs in Htv. simpl in Htv.
  rewrite (executor_unfold s c cl Hc). unfold InvW.
  destruct (truthy (timeout cl)) eqn:Ht, (connected s) eqn:Hcn; simpl.
  - eapply (InvC_start _ _ _ _ _ _ _ _ c cl (set_timer c (set_started cl)));
      eauto; simpl; try done.
    + by rewrite list_lookup_alter_eq, list_lookup_alter_eq, Hc.
    + intros c' Hn. by rewrite !list_lookup_alter_ne.
    + by rewrite Ht.
    + rewrite Ht. set_solver.
  - eapply (InvC_start _ _ _ _ _ _ _ _ c cl
              (settle (reject ERR_SOCKET_BAD_PORT) (set_timer c (set_started cl))));
      eauto; simpl; try done.
    + by rewrite !list_lookup_alter_eq, Hc.
    + intros c' Hn. by rewrite !list_lookup_alter_ne.
    + right. by rewrite Hp.
    + by rewrite Ht.
    + rewrite Ht. set_solver.
  - eapply (InvC_start _ _ _ _ _ _ _ _ c cl (set_started cl));
      eauto; simpl; try done.
    + by rewrite list_lookup_alter_eq, Hc.
    + intros c' Hn. by rewrite !list_lookup_alter_ne.
    + by rewrite Ht, Htv.
    + rewrite Ht. set_solver.
  - eapply (InvC_start _ _ _ _ _ _ _ _ c cl
              (settle (reject ERR_SOCKET_BAD_PORT) (set_started cl)));
      eauto; simpl; try done.
    + by rewrite !list_lookup_alter_eq, Hc.
    + intros c' Hn. by rewrite !list_lookup_alter_ne.
    + right. by rewrite Hp.
    + by rewrite Ht, Htv.
    + rewrite Ht. set_solver.
Qed.

(** ** What the callbacks do to a call's record *)

Lemma settle_pending f cl :
  resultPromise cl = Pending → settle f cl = settle (λ _, f Pending) cl.
Proof. unfold settle. by intros ->. Qed.

Lemma update_call_lookup s c c' f :
  calls (update_call c f s) !! c' =
  if decide (c = c') then f <$> calls s !! c else calls s !! c'.
Proof. unfold update_call; simpl. apply list_lookup_alter. Qed.

Lemma onMessage_call s c c' msg cl :
  calls s !! c' = Some cl →
  ∃ cl', calls (onMessage c msg s).1 !! c' = Some cl'
    ∧ (cl' = cl
       ∨ (c' = c ∧ resultPromise cl = Pending
          ∧ ∃ v, parse cl msg = Normal v ∧ match_ cl v = true
                 ∧ cl' = settle (λ _, Fulfilled v) cl)).
Proof.
  intros Hc. unfold onMessage.
  destruct (calls s !! c) as [cl0|] eqn:Hc0; [|eauto].
  destruct (parse cl0 msg) as [parsed|e] eqn:Hp; [|eauto].
  destruct (match_ cl0 parsed) eqn:Hm; [|eauto]. cbn [fst].
  rewrite update_call_lookup. unfold removeListener; cbn [calls with_listeners].
  destruct (clear_timer_of_frame cl0 s) as (_ & -> & _).
  destruct (decide (c = c')) as [->|Hn]; [|eauto].
  rewrite Hc0. simplify_eq. simpl. eexists. split; [done|].
  destruct (resultPromise cl) eqn:E.
  - right. split_and!; [done..|]. exists parsed. split_and!; [done..|].
    by rewrite settle_pending.
  - left. apply settle_id. by rewrite E.
  - left. apply settle_id. by rewrite E.
Qed.

Lemma emit_to_call ls : ∀ s c' msg cl,
  calls s !! c' = Some cl →
  ∃ cl', calls (emit_to ls msg s).1 !! c' = Some cl'
    ∧ (cl' = cl
       ∨ (c' ∈ ls ∧ resultPromise cl = Pending
          ∧ ∃ v, parse cl msg = Normal v ∧ match_ cl v = true
                 ∧ cl' = settle (λ _, Fulfilled v) cl)).
Proof.
  induction ls as [|c r IH]; intros s c' msg cl Hc; simpl; [eauto|].
  destruct (onMessage_call s c c' msg cl Hc) as (cl1 & Hc1 & Hcase).
  destruct (onMessage c msg s) as [s1 [e|]] eqn:Ho; simpl in *.
  - exists cl1. split; [done|].
    destruct Hcase as [?|(-> & ? & ?)]; [auto|]. right. set_solver.
  - destruct (IH s1 c' msg cl1 Hc1) as (cl2 & Hc2 & Hcase2).
    exists cl2. split; [done|].
    destruct Hcase as [->|(-> & Hp & v & ? & ? & ->)].
    + destruct Hcase2 as [->|(? & ?)]; [auto|]. right. set_solver.
    + destruct Hcase2 as [->|(_ & Hp2 & _)]; [|done]. right.
      split; [set_solver|eauto 10].
Qed.

Lemma onMessage_conn s c msg :
  connecting (onMessage c msg s).1 = connecting s
  ∧ connected (onMessage c msg s).1 = connected s
  ∧ connect_calls (onMessage c msg s).1 = connect_calls s
  ∧ inflight (onMessage c msg s).1 = inflight s.
Proof.
  unfold onMessage. destruct (calls s !! c) as [cl|]; [|done].
  destruct (parse cl msg); [|done]. destruct (match_ cl a); [|done].
  simpl. unfold clear_timer_of. by destruct (timer cl).
Qed.

Lemma emit_to_conn ls : ∀ s msg,
  connecting (emit_to ls msg s).1 = connecting s
  ∧ connected (emit_to ls msg s).1 = connected s
  ∧ connect_calls (emit_to ls msg s).1 = connect_calls s
  ∧ inflight (emit_to ls msg s).1 = inflight s.
Proof.
  induction ls as [|c r IH]; intros s msg; simpl; [done|].
  pose proof (onMessage_conn s c msg) as Ho.
  destruct (onMessage c msg s) as [s1 [e|]]; simpl in *; [done|].
  destruct (IH s1 msg) as (-> & -> & -> & ->). done.
Qed.

Lemma emit_to_inv ws ls : ∀ s msg,
  InvW ws s →
  (∀ c cl, c ∈ ls → calls s !! c = Some cl → started cl = true) →
  InvW ws (emit_to ls msg s).1.
Proof.
  induction ls as [|c r IH]; intros s msg HI Hs; simpl; [done|].
  pose proof (onMessage_inv ws s c msg HI) as Ho.
  assert (Hst : ∀ c' cl', c' ∈ r → calls (onMessage c msg s).1 !! c' = Some cl'
                           → started cl' = true).
  { intros c' cl' Hin Hl.
    destruct (calls s !! c') as [cl0|] eqn:E.
    - destruct (onMessage_call s c c' msg cl0 E) as (cl1 & Hl1 & Hcase).
      simplify_eq. assert (started cl0 = true) by (eapply (Hs c'); [set_solver|done]).
      destruct Hcase as [->|(_ & _ & v & _ & _ & ->)]; done.
    - exfalso. apply lookup_ge_None in E.
      apply lookup_lt_Some in Hl. revert Hl E. unfold onMessage.
      destruct (calls s !! c) as [cl|]; [|simpl; lia].
      destruct (parse cl msg); [|simpl; lia].
      destruct (match_ cl a); [|simpl; lia]. simpl.
      rewrite length_alter. destruct (clear_timer_of_frame cl s) as (_ & -> & _).
      lia. }
  destruct (onMessage c msg s) as [s1 [e|]]; simpl in *.
  - apply Ho. intros cl Hc. eapply (Hs c); [set_solver|done].
  - apply IH; [|done]. apply Ho. intros cl Hc. eapply (Hs c); [set_solver|done].
Qed.

(** ** The connect step *)

Lemma executor_call_ne s c c' :
  c' ≠ c → calls (executor c s) !! c' = calls s !! c'.
Proof.
  intros Hn. destruct (calls s !! c) as [cl|] eqn:Hc.
  - rewrite (executor_unfold s c cl Hc).
    destruct (truthy (timeout cl)), (connected s); simpl;
      by rewrite !list_lookup_alter_ne.
  - unfold executor. by rewrite Hc.
Qed.

Lemma executor_call_eq s c cl :
  calls s !! c = Some cl → timer cl = None →
  calls (executor c s) !! c = Some (started_record s c cl).
Proof.
  intros Hc Ht. rewrite (executor_unfold s c cl Hc).
  unfold started_record, refused_call, start_call, settle.
  destruct (truthy (timeout cl)), (connected s); simpl;
    rewrite !list_lookup_alter_eq, Hc; simpl; try done;
    unfold set_started; by rewrite ?Ht.
Qed.

Lemma executor_conn s c :
  connecting (executor c s) = connecting s
  ∧ connected (executor c s) = connected s
  ∧ connect_calls (executor c s) = connect_calls s.
Proof.
  destruct (calls s !! c) as [cl|] eqn:Hc.
  - rewrite (executor_unfold s c cl Hc).
    by destruct (truthy (timeout cl)), (connected s) eqn:Hcn.
  - unfold executor. by rewrite Hc.
Qed.

Lemma waiting_timer ws s c cl :
  InvW ws s → calls s !! c = Some cl → started cl = false → timer cl = None.
Proof.
  intros HI Hc Hs. by rewrite (inv_timer_var _ _ _ _ _ HI c cl Hc), Hs.
Qed.

Lemma resume_inv ws : ∀ s,
  InvW ws s → InvW [] (foldl (λ s c, executor c s) s ws).
Proof.
  induction ws as [|c r IH]; intros s HI; simpl; [done|].
  by apply IH, executor_inv.
Qed.

Lemma resume_conn ws : ∀ s,
  connecting (foldl (λ s c, executor c s) s ws) = connecting s
  ∧ connected (foldl (λ s c, executor c s) s ws) = connected s
  ∧ connect_calls (foldl (λ s c, executor c s) s ws) = connect_calls s.
Proof.
  induction ws as [|c r IH]; intros s; simpl; [done|].
  destruct (IH (executor c s)) as (-> & -> & ->). apply executor_conn.
Qed.

Lemma resume_call ws : ∀ s c cl,
  InvW ws s → calls s !! c = Some cl →
  calls (foldl (λ s c, executor c s) s ws) !! c
  = Some (if decide (c ∈ ws) then started_record s c cl else cl).
Proof.
  induction ws as [|c0 r IH]; intros s c cl HI Hc; simpl; [done|].
  pose proof (executor_inv _ _ _ HI) as HI'.
  pose proof (inv_ws_nodup _ _ _ _ _ HI) as Hnd.
  apply NoDup_cons in Hnd as [Hc0 Hnd].
  assert (Hsr : ∀ c1 cl1, started_record (executor c0 s) c1 cl1
                          = started_record s c1 cl1).
  { intros. unfold started_record.
    by rewrite (proj1 (proj2 (executor_conn s c0))). }
  destruct (decide (c = c0)) as [->|Hn].
  - destruct (inv_ws _ _ _ _ _ HI c0) as (cl0 & Hl & Hs); [set_solver|].
    simplify_eq.
    rewrite (IH _ c0 (started_record s c0 cl) HI').
    + rewrite (decide_False (P:=c0 ∈ r)) by done.
      by rewrite decide_True by set_solver.
    + apply executor_call_eq; [done|]. exact (waiting_timer _ _ _ _ HI Hc Hs).
  - rewrite (IH _ c cl HI') by (by rewrite executor_call_ne).
    rewrite Hsr.
    destruct (decide (c ∈ r)).
    + by rewrite decide_True by set_solver.
    + by rewrite decide_False by set_solver.
Qed.

(** ** The invariant holds in every state the event loop reaches *)

Lemma Inv_constructor : Inv (constructor (ResponseType:=ResponseType)).
Proof.
  unfold Inv, InvW, waiting; simpl.
  split; try (intros ??; set_solver); apply NoDup_nil_2.
Qed.

Lemma send_inv s d pf m t : Inv s → Inv (send d pf m t s).
Proof.
  intros HI. unfold Inv in *. unfold send.
  set (cl := MkCall d pf m (default (Num 5000) t) false None Pending).
  pose proof (InvC_new_call _ _ _ _ _ d pf m (default (Num 5000) t) HI) as HI0.
  fold cl in HI0.
  unfold _isConnected, remoteAddress; simpl.
  destruct (connected s) eqn:Hcn.
  - unfold waiting. rewrite (proj1 (executor_conn _ _)). simpl.
    apply executor_inv. unfold InvW; simpl.
    eapply InvC_perm; [|exact HI0].
    symmetry. apply Permutation_cons_append.
  - unfold _connect, reusePromise, await_connect, _connect_body; simpl.
    unfold waiting in HI0.
    destruct (connecting s) as [ws|] eqn:Hw; simpl in *.
    + by rewrite Hw.
    + done.
Qed.

Lemma connect_marked_inv s : Inv s → Inv (connect_marked s).
Proof. intros HI. unfold connect_marked. by destruct (connecting s). Qed.

Lemma connect_done_resumes s err ws :
  connecting s = Some ws →
  connected s = match err with Some _ => false | None => true end →
  connect_done err s = foldl (λ s c, executor c s) (with_connecting None s) ws.
Proof.
  intros Hw Hc. unfold connect_done, connectCallback, settle_connect.
  rewrite Hw, Hc. by destruct err.
Qed.

Lemma connect_done_skips s err :
  connecting s = None
  ∨ connected s ≠ match err with Some _ => false | None => true end →
  connect_done err s = s.
Proof.
  unfold connect_done. intros [->|Hc]; [done|].
  destruct (connecting s); [|done]. by destruct err, (connected s).
Qed.

Lemma connect_done_cases s err :
  (∃ ws, connecting s = Some ws
         ∧ connected s = match err with Some _ => false | None => true end
         ∧ connect_done err s
           = foldl (λ s c, executor c s) (with_connecting None s) ws)
  ∨ connect_done err s = s.
Proof.
  destruct (connecting s) as [ws|] eqn:Hw.
  - destruct (decide (connected s
                      = match err with Some _ => false | None => true end))
      as [Hc|Hc].
    + left. exists ws. split_and!; [done..|]. by apply connect_done_resumes.
    + right. apply connect_done_skips. by right.
  - right. apply connect_done_skips. by left.
Qed.

Lemma connect_done_inv s err : Inv s → Inv (connect_done err s).
Proof.
  intros HI.
  destruct (connect_done_cases s err) as [(ws & Hw & Hc & ->)| ->]; [|done].
  unfold Inv, waiting in *. rewrite Hw in HI. simpl in HI.
  rewrite (proj1 (resume_conn _ _)). simpl. by apply resume_inv.
Qed.

Lemma step_inv s ev : Inv s → Inv (step s ev).
Proof.
  intros HI. destruct ev as [d pf m t| |err|msg|h|c err]; simpl.
  - by apply send_inv.
  - by apply connect_marked_inv.
  - by apply connect_done_inv.
  - unfold Inv in *. unfold emit.
    pose proof (emit_to_inv (waiting s) (listeners s) s msg HI) as HI'.
    destruct (emit_to_conn (listeners s) s msg) as (Hc1 & Hc2 & _).
    assert (Hst : ∀ c cl, c ∈ listeners s → calls s !! c = Some cl
                          → started cl = true).
    { intros c cl Hin Hl.
      destruct (inv_listener _ _ _ _ _ HI c Hin) as (? & ? & ? & _). congruence. }
    specialize (HI' Hst).
    destruct (emit_to (listeners s) msg s) as [s' [e|]]; simpl in *;
      unfold waiting; simpl; by rewrite Hc1.
  - unfold Inv in *. destruct (decide (h ∈ timers s)); [|done].
    by apply onTimeout_inv.
  - unfold Inv in *. destruct (decide (c ∈ inflight s)) as [Hin|]; [|done].
    assert (HI1 : InvW (waiting s) (with_inflight (inflight s ∖ {[c]}) s)).
    { eapply InvC_inflight_subseteq; [|exact HI]. simpl. set_solver. }
    destruct (inv_inflight _ _ _ _ _ HI c Hin) as (cl & Hc & Hs).
    pose proof (sendCallback_inv _ _ c err HI1) as HI2.
    assert (Hfr : connecting (sendCallback c err (with_inflight (inflight s ∖ {[c]}) s))
                  = connecting s).
    { unfold sendCallback. destruct err; [|done]. simpl. rewrite Hc. simpl.
      unfold clear_timer_of. by destruct (timer cl). }
    unfold waiting. rewrite Hfr. apply HI2. simpl. intros ? ?. congruence.
Qed.

Lemma run_inv evs : ∀ s, Inv s → Inv (run s evs).
Proof.
  induction evs as [|ev r IH]; intros s HI; simpl; [done|].
  by apply IH, step_inv.
Qed.

Lemma run_cons s ev evs : run s (ev :: evs) = run (step s ev) evs.
Proof. done. Qed.

Lemma run_snoc s evs ev : run s (evs ++ [ev]) = step (run s evs) ev.
Proof. unfold run. by rewrite foldl_snoc. Qed.

Lemma run_app s evs evs' : run s (evs ++ evs') = run (run s evs) evs'.
Proof. unfold run. by rewrite foldl_app. Qed.

(** ** One event and one call *)

Lemma call_evolves_refl cl : call_evolves cl cl.
Proof. by repeat split. Qed.

Lemma call_evolves_trans cl1 cl2 cl3 :
  call_evolves cl1 cl2 → call_evolves cl2 cl3 → call_evolves cl1 cl3.
Proof.
  unfold call_evolves. intros (?&?&?&?&?) (?&?&?&?&?). split_and!; try congruence.
  auto.
Qed.

Lemma call_step_args s ev c cl cl' : call_step s ev c cl cl' → call_evolves cl cl'.
Proof. destruct 1; by repeat split. Qed.

Lemma send_call s d pf m t c cl :
  Inv s → calls s !! c = Some cl → calls (send d pf m t s) !! c = Some cl.
Proof.
  intros HI Hc. unfold send.
  assert (Hlt : c < length (calls s)) by (by eapply lookup_lt_Some).
  assert (Hl0 : ∀ x, (calls s ++ [x]) !! c = Some cl).
  { intros x. by rewrite lookup_app_l. }
  destruct (_isConnected _).
  - rewrite executor_call_ne by lia. simpl. apply Hl0.
  - unfold await_connect, _connect, reusePromise, _connect_body. simpl.
    destruct (connecting s) eqn:Hw; simpl; rewrite ?Hw; simpl; apply Hl0.
Qed.

Lemma connect_done_call s err c cl :
  Inv s → calls s !! c = Some cl →
  calls (connect_done err s) !! c = Some cl
  ∨ (c ∈ waiting s
     ∧ connected s = match err with Some _ => false | None => true end
     ∧ calls (connect_done err s) !! c = Some (started_record s c cl)).
Proof.
  intros HI Hc.
  destruct (connect_done_cases s err) as [(ws & Hw & Hcn & ->)| ->]; [|by left].
  unfold Inv, waiting in *. rewrite Hw in *. simpl in *.
  rewrite (resume_call ws _ c cl) by done.
  destruct (decide (c ∈ ws)); [right|left]; done.
Qed.

Lemma step_call s ev c cl :
  Inv s → calls s !! c = Some cl →
  ∃ cl', calls (step s ev) !! c = Some cl' ∧ call_step s ev c cl cl'.
Proof.
  intros HI Hc. destruct ev as [d pf m t| |err|msg|h|c0 err]; simpl.
  - exists cl. split; [by apply send_call|constructor].
  - exists cl. split; [|constructor].
    unfold connect_marked. by destruct (connecting s).
  - destruct (connect_done_call s err c cl HI Hc) as [Hl|(Hin & Hcn & Hl)];
      [exists cl; split; [done|constructor]|].
    exists (started_record s c cl). split; [done|].
    destruct (inv_ws _ _ _ _ _ HI c Hin) as (? & ? & ?). simplify_eq.
    unfold started_record. rewrite Hcn.
    destruct err as [e|]; [by eapply call_refused|by apply call_start].
  - unfold emit.
    destruct (emit_to_call (listeners s) s c msg cl Hc) as (cl' & Hl & Hcase).
    exists cl'. split.
    { by destruct (emit_to (listeners s) msg s) as [s' [e|]]. }
    destruct Hcase as [->|(Hin & Hp & v & Hpa & Hm & ->)]; [constructor|].
    destruct (inv_listener _ _ _ _ _ HI c Hin) as (? & ? & ? & _). simplify_eq.
    apply call_settle; [done..|]. by constructor.
  - destruct (decide (h ∈ timers s)) as [Hin|]; [|eexists; split; [done|constructor]].
    unfold onTimeout. rewrite update_call_lookup. simpl.
    destruct (decide (h = c)) as [->|]; [|eexists; split; [done|constructor]].
    rewrite Hc. simpl. eexists. split; [done|].
    destruct (inv_timer _ _ _ _ _ HI c Hin) as (? & ? & ? & [Hp|[Hp _]] & _);
      simplify_eq.
    + rewrite settle_pending by done. apply call_settle; [done..|]. by constructor.
    + rewrite settle_id by (by rewrite Hp). constructor.
  - destruct (decide (c0 ∈ inflight s)) as [Hin|]; [|eexists; split; [done|constructor]].
    destruct err as [e|]; simpl; [|eexists; split; [done|constructor]].
    destruct (inv_inflight _ _ _ _ _ HI c0 Hin) as (cl0 & Hc0 & Hs0).
    rewrite Hc0. rewrite update_call_lookup.
    unfold removeListener; cbn [calls with_listeners].
    destruct (clear_timer_of_frame cl0 (with_inflight (inflight s ∖ {[c0]}) s))
      as (_ & -> & _). simpl.
    destruct (decide (c0 = c)) as [->|]; [|eexists; split; [done|constructor]].
    rewrite Hc. simpl. eexists. split; [done|]. simplify_eq.
    destruct (resultPromise cl) eqn:E.
    + rewrite settle_pending by done. apply call_settle; [done..|]. by constructor.
    + rewrite settle_id by (by rewrite E). constructor.
    + rewrite settle_id by (by rewrite E). constructor.
Qed.

(** A settled call is never touched again. *)
Lemma step_settled s ev c cl :
  Inv s → calls s !! c = Some cl → resultPromise cl ≠ Pending →
  calls (step s ev) !! c = Some cl.
Proof.
  intros HI Hc Hp. destruct (step_call s ev c cl HI Hc) as (cl' & Hl & Hst).
  destruct Hst as [|Hs|err Hs _|p' _ Hp' _]; [done| | |done];
    by destruct (inv_waiting _ _ _ _ _ HI c cl Hc Hs).
Qed.


Lemma run_call evs : ∀ s c cl,
  Inv s → calls s !! c = Some cl →
  ∃ cl', calls (run s evs) !! c = Some cl' ∧ call_evolves cl cl'.
Proof.
  induction evs as [|ev r IH]; intros s c cl HI Hc; simpl.
  - eauto using call_evolves_refl.
  - destruct (step_call s ev c cl HI Hc) as (cl1 & Hl1 & Hst).
    destruct (IH _ c cl1 (step_inv _ ev HI) Hl1) as (cl2 & Hl2 & Ha).
    eauto using call_evolves_trans, call_step_args.
Qed.


(** ** Calls are only ever added by [send] *)

Lemma onMessage_length s c msg :
  length (calls (onMessage c msg s).1) = length (calls s).
Proof.
  unfold onMessage. destruct (calls s !! c) as [cl|]; [|done].
  destruct (parse cl msg); [|done]. destruct (match_ cl a); [|done].
  simpl. rewrite length_alter. by destruct (clear_timer_of_frame cl s) as (_ & -> & _).
Qed.

Lemma emit_to_length ls : ∀ s msg,
  length (calls (emit_to ls msg s).1) = length (calls s).
Proof.
  induction ls as [|c r IH]; intros s msg; simpl; [done|].
  pose proof (onMessage_length s c msg) as Ho.
  destruct (onMessage c msg s) as [s1 [e|]]; simpl in *; [done|].
  by rewrite IH.
Qed.

Lemma executor_length s c : length (calls (executor c s)) = length (calls s).
Proof.
  destruct (calls s !! c) as [cl|] eqn:Hc.
  - rewrite (executor_unfold s c cl Hc).
    destruct (truthy (timeout cl)), (connected s); simpl;
      by rewrite !length_alter.
  - unfold executor. by rewrite Hc.
Qed.

Lemma resume_length ws : ∀ s,
  length (calls (foldl (λ s c, executor c s) s ws)) = length (calls s).
Proof.
  induction ws as [|c r IH]; intros s; simpl; [done|].
  by rewrite IH, executor_length.
Qed.

Lemma step_length s ev :
  length (calls (step s ev))
  = match ev with EvSend _ _ _ _ => S (length (calls s)) | _ => length (calls s) end.
Proof.
  destruct ev as [d pf m t| |err|msg|h|c err]; simpl.
  - unfold send. destruct (_isConnected _).
    + rewrite executor_length. simpl. rewrite length_app. simpl. lia.
    + unfold await_connect, _connect, reusePromise, _connect_body. simpl.
      destruct (connecting s) eqn:Hw; simpl; rewrite ?Hw; simpl;
        rewrite length_app; simpl; lia.
  - unfold connect_marked. by destruct (connecting s).
  - destruct (connect_done_cases s err) as [(ws & Hw & Hcn & ->)| ->]; [|done].
    by rewrite resume_length.
  - unfold emit. pose proof (emit_to_length (listeners s) s msg) as Hl.
    by destruct (emit_to (listeners s) msg s) as [s' [e0|]].
  - destruct (decide (h ∈ timers s)) as [Hin|]; [|done]. simpl.
    by rewrite length_alter.
  - destruct (decide (c ∈ inflight s)) as [Hin|]; [|done].
    destruct err as [e|]; [|done].
    simpl. destruct (calls s !! c) as [cl|]; [|done]. simpl.
    rewrite length_alter.
    by destruct (clear_timer_of_frame cl (with_inflight (inflight s ∖ {[c]}) s))
      as (_ & -> & _).
Qed.



(** ** Where an outcome comes from *)



(** ** The listener on its own *)

Lemma reachable_inv evs : Inv (run (ResponseType:=ResponseType) constructor evs).
Proof. apply run_inv, Inv_constructor. Qed.

Lemma onMessage_throw s c cl msg e :
  calls s !! c = Some cl → parse cl msg = Throw e →
  onMessage c msg s = (s, Some e).
Proof. intros Hc Hp. unfold onMessage. by rewrite Hc, Hp. Qed.

Lemma onMessage_match s c cl msg v :
  calls s !! c = Some cl → parse cl msg = Normal v → match_ cl v = true →
  onMessage c msg s
  = (update_call c (settle (resolve v))
       (removeListener c (clear_timer_of cl s)), None).
Proof. intros Hc Hp Hm. unfold onMessage. by rewrite Hc, Hp, Hm. Qed.

Lemma finish_promise s c cl f :
  calls s !! c = Some cl →
  promise_of c (update_call c (settle f) (removeListener c (clear_timer_of cl s)))
  = Some (f (resultPromise cl)).
Proof.
  intros Hc. unfold promise_of. rewrite update_call_lookup.
  rewrite decide_True by done.
  unfold removeListener; cbn [calls with_listeners].
  destruct (clear_timer_of_frame cl s) as (_ & -> & _). by rewrite Hc.
Qed.



(** A call to which a send callback is owed, and whose listener or timer
    is in place, is pending. *)
Lemma owed_listener_pending s c cl :
  Inv s → calls s !! c = Some cl → c ∈ inflight s →
  c ∈ listeners s ∨ c ∈ timers s → resultPromise cl = Pending.
Proof.
  intros HI Hc Hf [Hin|Hin].
  - destruct (inv_listener _ _ _ _ _ HI c Hin) as (? & ? & _ & [?|[_ ?]]);
      [congruence|done].
  - destruct (inv_timer _ _ _ _ _ HI c Hin) as (? & ? & _ & [?|[_ ?]] & _);
      [congruence|done].
Qed.

Lemma promise_of_Some s c p :
  promise_of c s = Some p ↔ ∃ cl, calls s !! c = Some cl ∧ resultPromise cl = p.
Proof.
  unfold promise_of. destruct (calls s !! c) as [cl|]; simpl; split.
  - intros [= <-]. eauto.
  - intros (? & [= <-] & <-). done.
  - done.
  - by intros (? & ? & _).
Qed.

(** ** The dispatch of one datagram *)

Lemma onMessage_returns s c msg :
  (∀ cl e, calls s !! c = Some cl → parse cl msg ≠ Throw e) →
  (onMessage c msg s).2 = None.
Proof.
  intros Hno. unfold onMessage. destruct (calls s !! c) as [cl|] eqn:Hc; [|done].
  destruct (parse cl msg) as [parsed|e] eqn:Hp; [|by destruct (Hno cl e)].
  by destruct (match_ cl parsed).
Qed.

Lemma onMessage_call_back s c c' msg cl' :
  calls (onMessage c msg s).1 !! c' = Some cl' →
  ∃ cl, calls s !! c' = Some cl ∧ call_evolves cl cl'.
Proof.
  intros Hc'. destruct (calls s !! c') as [cl|] eqn:Hc.
  - destruct (onMessage_call s c c' msg cl Hc) as (cl1 & Hl & Hcase).
    simplify_eq. exists cl. split; [done|].
    destruct Hcase as [->|(_ & _ & v & _ & _ & ->)]; by repeat split.
  - apply lookup_ge_None in Hc. apply lookup_lt_Some in Hc'.
    rewrite onMessage_length in Hc'. lia.
Qed.

(** A datagram resolves the call whose listener parses a matching value
    from it, unless an older listener throws first. *)
Lemma emit_to_resolves ls msg c v : ∀ s cl,
  c ∈ ls → calls s !! c = Some cl → resultPromise cl = Pending →
  parse cl msg = Normal v → match_ cl v = true →
  (∀ c' cl' e, c' ∈ ls → calls s !! c' = Some cl' → parse cl' msg ≠ Throw e) →
  promise_of c (emit_to ls msg s).1 = Some (Fulfilled v).
Proof.
  induction ls as [|c0 r IH]; intros s cl Hin Hc Hp Hpa Hm Hno; [set_solver|].
  simpl. destruct (decide (c0 = c)) as [->|Hne].
  - rewrite (onMessage_match s c cl msg v) by done.
    pose proof (finish_promise s c cl (resolve v) Hc) as Hfin. rewrite Hp in Hfin.
    apply promise_of_Some in Hfin as (cl1 & Hc1 & Hp1).
    destruct (emit_to_call r _ c msg cl1 Hc1) as (cl2 & Hc2 & Hcase).
    apply promise_of_Some. exists cl2. split; [done|].
    destruct Hcase as [->|(_ & Hpe & _)]; [done|]. rewrite Hp1 in Hpe. done.
  - assert (Hret : (onMessage c0 msg s).2 = None).
    { apply onMessage_returns. intros cl0 e Hc0. apply (Hno c0); [set_solver|done]. }
    destruct (onMessage_call s c0 c msg cl Hc) as (cl1 & Hc1 & Hcase).
    assert (Hback : ∀ c' cl', calls (onMessage c0 msg s).1 !! c' = Some cl' →
                      ∃ cl0, calls s !! c' = Some cl0 ∧ call_evolves cl0 cl').
    { intros c' cl'. apply onMessage_call_back. }
    destruct (onMessage c0 msg s) as [s1 o]; simpl in *. subst o.
    destruct Hcase as [->|(? & _)]; [|congruence].
    apply (IH s1 cl); [set_solver|done..|].
    intros c' cl' e Hin' Hl'. destruct (Hback c' cl' Hl') as (cl0 & Hl0 & Ha).
    destruct Ha as (_ & -> & _). apply (Hno c'); [set_solver|done].
Qed.

Lemma onMessage_uncaught s c msg :
  uncaught (onMessage c msg s).1 = uncaught s.
Proof.
  unfold onMessage. destruct (calls s !! c) as [cl|]; [|done].
  destruct (parse cl msg); [|done]. destruct (match_ cl a); [|done].
  simpl. unfold clear_timer_of. by destruct (timer cl).
Qed.

Lemma emit_to_uncaught ls : ∀ s msg,
  uncaught (emit_to ls msg s).1 = uncaught s.
Proof.
  induction ls as [|c r IH]; intros s msg; simpl; [done|].
  pose proof (onMessage_uncaught s c msg) as Ho.
  destruct (onMessage c msg s) as [s1 [e1|]]; simpl in *; [done|].
  by rewrite IH.
Qed.

(** A datagram on which the [parse] of a registered call throws ends its
    dispatch with an exception. *)
Lemma emit_to_throws ls msg c cl e : ∀ s,
  c ∈ ls → calls s !! c = Some cl → parse cl msg = Throw e →
  ∃ e', (emit_to ls msg s).2 = Some e'.
Proof.
  induction ls as [|c0 r IH]; intros s Hin Hc Hp; [set_solver|]. simpl.
  destruct (decide (c0 = c)) as [->|Hne].
  { rewrite (onMessage_throw s c cl msg e) by done. eauto. }
  destruct (onMessage_call s c0 c msg cl Hc) as (cl1 & Hc1 & Hcase).
  destruct (onMessage c0 msg s) as [s1 [e1|]]; simpl in *; [eauto|].
  destruct Hcase as [->|(? & _)]; [|congruence].
  apply (IH s1); [set_solver|done..].
Qed.

Lemma run_host_keep_running evs : ∀ s, run_host KeepRunning s evs = run s evs.
Proof.
  induction evs as [|ev r IH]; intros s; [done|].
  change (run_host KeepRunning (deliver KeepRunning s ev) r = run (step s ev) r).
  rewrite IH. unfold deliver, exited. by destruct (uncaught s).
Qed.

(** ** The listener (lines 83-93) *)

(** The listener of a call on whose [parse] the datagram throws is still
    registered when the dispatch of the datagram ends. *)
Lemma emit_to_keeps_thrower ls msg c cl e : ∀ s,
  calls s !! c = Some cl → parse cl msg = Throw e → c ∈ listeners s →
  c ∈ listeners (emit_to ls msg s).1.
Proof.
  induction ls as [|c0 r IH]; intros s Hc Hp Hin; [done|]. simpl.
  destruct (decide (c0 = c)) as [->|Hne].
  { by rewrite (onMessage_throw s c cl msg e). }
  destruct (onMessage_call s c0 c msg cl Hc) as (cl1 & Hc1 & Hcase).
  assert (Hk : c ∈ listeners (onMessage c0 msg s).1).
  { unfold onMessage. destruct (calls s !! c0) as [cl0|]; [|done].
    destruct (parse cl0 msg) as [v0|]; [|done].
    destruct (match_ cl0 v0); [|done].
    simpl. destruct (clear_timer_of_frame cl0 s) as (-> & _).
    apply remove_last_keeps; [congruence|done]. }
  destruct Hcase as [->|(? & _)]; [|congruence].
  destruct (onMessage c0 msg s) as [s1 [e1|]]; simpl in *; [done|].
  by apply IH.
Qed.

(** A callback that settles call [c] leaves it with no listener and no
    armed timer, whether or not the call was still pending. *)
Lemma finish_detached ws s c cl f :
  InvW ws s → calls s !! c = Some cl →
  (c ∉ listeners (update_call c (settle f)
                    (removeListener c (clear_timer_of cl s))))
  ∧ (c ∉ timers (update_call c (settle f)
                   (removeListener c (clear_timer_of cl s)))).
Proof.
  intros HI Hc. simpl. split.
  - destruct (clear_timer_of_frame cl s) as (-> & _).
    apply remove_last_gone, (inv_nodup _ _ _ _ _ HI).
  - intros Hin. by eapply clear_timer_of_timers in Hin as [_ ?].
Qed.

(** C1, as the code has it.  When [parse] throws on a datagram, the listener
    of call [c] does not catch the exception: it leaves the listener, ends
    the dispatch of the datagram and reaches the event loop, where the
    default host ends the process.  The call itself is left as it was, with
    its listener registered, so that when the host keeps running, whatever
    happens next, as long as the call is pending, a datagram whose parsed
    value matches resolves the call with that value once its listener is
    invoked on it. *)
Theorem parse_failure_leaves_call_waiting evs c cl msg e :
  let s := run constructor evs in
  calls s !! c = Some cl → c ∈ listeners s → parse cl msg = Throw e →
  let s1 := step s (EvMessage msg) in
  onMessage c msg s = (s, Some e)
  ∧ (∃ e', uncaught s1 = uncaught s ++ [e'])
  ∧ exited ExitOnUncaught s1 = true
  ∧ (∀ ev, deliver ExitOnUncaught s1 ev = s1)
  ∧ calls s1 !! c = Some cl ∧ c ∈ listeners s1
  ∧ ∀ evs' msg' v,
      promise_of c (run_host KeepRunning s1 evs') = Some Pending →
      parse cl msg' = Normal v → match_ cl v = true →
      c ∈ listeners (run_host KeepRunning s1 evs')
      ∧ promise_of c (onMessage c msg' (run_host KeepRunning s1 evs')).1
        = Some (Fulfilled v).
Proof.
  intros s Hc Hin Hp s1.
  pose proof (reachable_inv evs) as HI. fold s in HI.
  assert (HI1 : Inv s1) by (by apply step_inv).
  destruct (inv_listener _ _ _ _ _ HI c Hin) as (cl0 & Hc0 & Hst & _).
  simplify_eq.
  assert (Hc1 : calls s1 !! c = Some cl).
  { destruct (step_call s (EvMessage msg) c cl HI Hc) as (cl' & Hl & Hcs).
    destruct Hcs as [|Hs|err Hs _|p' _ _ Hset]; [done|congruence|congruence|].
    inversion Hset; congruence. }
  assert (Hunc : ∃ e', uncaught s1 = uncaught s ++ [e']).
  { unfold s1. simpl. unfold emit.
    destruct (emit_to_throws (listeners s) msg c cl e s Hin Hc Hp) as (e' & He').
    pose proof (emit_to_uncaught (listeners s) s msg) as Hu.
    destruct (emit_to (listeners s) msg s) as [s2 o]; simpl in *. subst o.
    exists e'. simpl. by rewrite Hu. }
  assert (Hex : exited ExitOnUncaught s1 = true).
  { destruct Hunc as (e' & He'). unfold exited. rewrite He'.
    by destruct (uncaught s). }
  split_and!; [by apply (onMessage_throw s c cl msg e)|done|done| |done| |].
  - intros ev. unfold deliver. by rewrite Hex.
  - unfold s1. simpl. unfold emit.
    pose proof (emit_to_keeps_thrower (listeners s) msg c cl e s Hc Hp Hin) as Hk.
    by destruct (emit_to (listeners s) msg s) as [s2 [e2|]].
  - intros evs' msg' v. rewrite run_host_keep_running. intros Hpend Hpa Hm.
    assert (HI2 : Inv (run s1 evs')) by (by apply run_inv).
    destruct (run_call evs' s1 c cl HI1 Hc1) as (cl2 & Hc2 & Ha).
    destruct Ha as (_ & Hpar & Hmat & _ & Hstarted).
    apply promise_of_Some in Hpend as (cl3 & Hc3 & Hp3). simplify_eq.
    split.
    + apply (inv_pending _ _ _ _ _ HI2 c cl3); auto.
    + rewrite (onMessage_match _ c cl3 msg' v); [|done|congruence|congruence].
      cbn [fst]. rewrite finish_promise by done. by rewrite Hp3.
Qed.


(** ** The timer (lines 95-100) *)

Lemma timer_fires s c cl :
  calls s !! c = Some cl → c ∈ timers s →
  promise_of c (step s (EvTimer c))
  = Some (reject timeout_error (resultPromise cl)).
Proof.
  intros Hc Hin. simpl. rewrite decide_True by done.
  unfold promise_of, onTimeout. rewrite update_call_lookup.
  rewrite decide_True by done. simpl. by rewrite Hc.
Qed.




(** ** The send callback (lines 104-112) *)

Lemma send_fails s c cl e :
  c ∈ inflight s → calls s !! c = Some cl →
  promise_of c (step s (EvSendDone c (Some e)))
  = Some (reject e (resultPromise cl)).
Proof.
  intros Hin Hc. simpl. rewrite decide_True by done. simpl. rewrite Hc.
  by rewrite (finish_promise (with_inflight (inflight s ∖ {[c]}) s) c cl).
Qed.

Lemma send_fails_detaches s c e :
  Inv s → c ∈ inflight s →
  (c ∉ timers (step s (EvSendDone c (Some e))))
  ∧ (c ∉ listeners (step s (EvSendDone c (Some e)))).
Proof.
  intros HI Hin. cbn [step]. rewrite decide_True by done.
  destruct (inv_inflight _ _ _ _ _ HI c Hin) as (cl & Hc & _).
  unfold sendCallback. cbn [calls with_inflight]. rewrite Hc.
  assert (HI0 : InvW (waiting s) (with_inflight (inflight s ∖ {[c]}) s)).
  { eapply InvC_inflight_subseteq; [|exact HI]. simpl. set_solver. }
  destruct (finish_detached _ _ c cl (reject e) HI0 Hc). done.
Qed.

(** C8, as the code has it.  When the send callback of call [c] reports an
    error, the call's timer is not armed afterwards and its listener is off
    the socket; the call is rejected with exactly that error if it was still
    pending, and keeps the outcome it already had otherwise. *)
Theorem transport_error_rejects_pending evs c cl e :
  let s := run constructor evs in
  calls s !! c = Some cl → c ∈ inflight s →
  let s' := step s (EvSendDone c (Some e)) in
  (c ∉ timers s') ∧ (c ∉ listeners s')
  ∧ (resultPromise cl = Pending → promise_of c s' = Some (Rejected e))
  ∧ (resultPromise cl ≠ Pending → promise_of c s' = Some (resultPromise cl)).
Proof.
  intros s Hc Hin s'.
  pose proof (reachable_inv evs) as HI. fold s in HI.
  pose proof (send_fails s c cl e Hin Hc) as Hpr. fold s' in Hpr.
  destruct (send_fails_detaches s c e HI Hin) as [Ht Hl].
  split_and!; [done|done| |].
  - intros Hp. by rewrite Hpr, Hp.
  - intros Hp. by rewrite Hpr, reject_settled.
Qed.

(** C9.  When the send callback reports no error it changes nothing: the
    callback returns the state it was given, and the event leaves every
    call, the listeners, the timers and the connection as they were. *)
Theorem send_success_changes_nothing s c :
  sendCallback c None s = s
  ∧ let s' := step s (EvSendDone c None) in
    calls s' = calls s ∧ listeners s' = listeners s ∧ timers s' = timers s
    ∧ connected s' = connected s ∧ connecting s' = connecting s
    ∧ sent s' = sent s ∧ uncaught s' = uncaught s
    ∧ promise_of c s' = promise_of c s.
Proof.
  split; [done|]. simpl. by destruct (decide (c ∈ inflight s)).
Qed.

(** C10.  The timeout rejects with [new Error("Socket timeout")], a
    transport failure rejects with the error the send callback was given,
    and the two outcomes of a call differ exactly when that error differs
    from a plain [Error] with the message "Socket timeout": nothing else
    marks a timeout. *)
Theorem timeout_told_by_message_only evs c cl e :
  let s := run constructor evs in
  calls s !! c = Some cl → c ∈ timers s → c ∈ inflight s →
  promise_of c (step s (EvTimer c)) = Some (Rejected (new_Error "Socket timeout"))
  ∧ message (new_Error "Socket timeout") = "Socket timeout"
  ∧ promise_of c (step s (EvSendDone c (Some e))) = Some (Rejected e)
  ∧ ∀ m, promise_of c (step s (EvTimer c))
         = promise_of c (step s (EvSendDone c (Some (new_Error m))))
         ↔ m = "Socket timeout".
Proof.
  intros s Hc Hin Hfl.
  pose proof (reachable_inv evs) as HI. fold s in HI.
  assert (Hp : resultPromise cl = Pending).
  { apply (owed_listener_pending s c cl HI Hc Hfl). by right. }
  assert (Hfire : promise_of c (step s (EvTimer c))
                  = Some (Rejected timeout_error)).
  { by rewrite (timer_fires s c cl Hc Hin), Hp. }
  assert (Hfail : ∀ e', promise_of c (step s (EvSendDone c (Some e')))
                        = Some (Rejected e')).
  { intros e'. by rewrite (send_fails s c cl e' Hfl Hc), Hp. }
  split_and!; [done|done|apply Hfail|].
  intros m. rewrite Hfire, Hfail. unfold timeout_error, new_Error.
  split; [by intros [= ->]|by intros ->].
Qed.

(** ** The life of a call as a whole (lines 79-114) *)


(** ** The connect step (lines 45-52 and 75-77) *)

(** What [executor] does to the socket besides the call's record. *)
Lemma executor_fields s c cl :
  calls s !! c = Some cl →
  listeners (executor c s) = listeners s ++ [c]
  ∧ timers (executor c s)
    = (if truthy (timeout cl) then {[c]} ∪ timers s else timers s)
  ∧ inflight (executor c s)
    = (if connected s then {[c]} ∪ inflight s else inflight s)
  ∧ sent (executor c s) = sent s ++ [data cl].
Proof.
  intros Hc. rewrite (executor_unfold s c cl Hc).
  by destruct (truthy (timeout cl)), (connected s).
Qed.

Lemma executor_mono s c :
  listeners s ⊆ listeners (executor c s)
  ∧ timers s ⊆ timers (executor c s)
  ∧ inflight s ⊆ inflight (executor c s)
  ∧ sent s ⊆ sent (executor c s).
Proof.
  destruct (calls s !! c) as [cl|] eqn:Hc.
  - destruct (executor_fields s c cl Hc) as (-> & -> & -> & ->).
    destruct (truthy (timeout cl)), (connected s); set_solver.
  - unfold executor. by rewrite Hc.
Qed.

Lemma resume_mono ws : ∀ s,
  listeners s ⊆ listeners (foldl (λ s c, executor c s) s ws)
  ∧ timers s ⊆ timers (foldl (λ s c, executor c s) s ws)
  ∧ inflight s ⊆ inflight (foldl (λ s c, executor c s) s ws)
  ∧ sent s ⊆ sent (foldl (λ s c, executor c s) s ws).
Proof.
  induction ws as [|c0 r IH]; intros s; simpl; [done|].
  destruct (IH (executor c0 s)) as (H1 & H2 & H3 & H4).
  destruct (executor_mono s c0) as (G1 & G2 & G3 & G4).
  split_and!; etrans; done.
Qed.

(** Every resumed call has its listener registered, its timer armed when
    its timeout is truthy, and [socket.send] called with its payload; the
    socket owes it the send callback if it is connected. *)
Lemma resume_fields ws : ∀ s c cl,
  InvW ws s → c ∈ ws → calls s !! c = Some cl →
  c ∈ listeners (foldl (λ s c, executor c s) s ws)
  ∧ (truthy (timeout cl) = true →
     c ∈ timers (foldl (λ s c, executor c s) s ws))
  ∧ (connected s = true → c ∈ inflight (foldl (λ s c, executor c s) s ws))
  ∧ data cl ∈ sent (foldl (λ s c, executor c s) s ws).
Proof.
  induction ws as [|c0 r IH]; intros s c cl HI Hin Hc; simpl; [set_solver|].
  destruct (decide (c = c0)) as [->|Hn].
  - destruct (resume_mono r (executor c0 s)) as (H1 & H2 & H3 & H4).
    destruct (executor_fields s c0 cl Hc) as (G1 & G2 & G3 & G4).
    split_and!.
    + apply H1. rewrite G1. set_solver.
    + intros Ht. apply H2. rewrite G2, Ht. set_solver.
    + intros Hcn. apply H3. rewrite G3, Hcn. set_solver.
    + apply H4. rewrite G4. set_solver.
  - destruct (IH (executor c0 s) c cl) as (H1 & H2 & H3 & H4);
      [by apply executor_inv|set_solver|by rewrite executor_call_ne|].
    split_and!; [done|done| |done].
    intros Hcn. apply H3. by rewrite (proj1 (proj2 (executor_conn s c0))).
Qed.

(** On a socket that is not connected no resumed call is owed a send
    callback. *)
Lemma resume_refused ws : ∀ s,
  connected s = false →
  inflight (foldl (λ s c, executor c s) s ws) = inflight s.
Proof.
  induction ws as [|c0 r IH]; intros s Hcn; simpl; [done|].
  rewrite IH by (by rewrite (proj1 (proj2 (executor_conn s c0)))).
  destruct (calls s !! c0) as [cl|] eqn:Hc.
  - destruct (executor_fields s c0 cl Hc) as (_ & _ & -> & _). by rewrite Hcn.
  - unfold executor. by rewrite Hc.
Qed.

(** C2, on the code.  The callback given to [socket.connect] takes no
    argument and resolves: when dgram reports a failed connect, the socket
    is not connected, and every call that awaited the attempt is resumed as
    after a successful connect.  It arms its timer, registers its listener
    and calls [socket.send] with its payload; that call throws, and the
    exception, not the connect error, is what the call is rejected with.
    The listener and the timer stay in place, and no send callback is
    owed. *)
Theorem connect_failure_resumes_waiters evs err c :
  let s := run constructor evs in
  c ∈ waiting s → connected s = false →
  let s' := step s (EvConnect (Some err)) in
  connected s' = false ∧ connecting s' = None
  ∧ (∃ cl, calls s' !! c = Some cl ∧ started cl = true
           ∧ resultPromise cl = Rejected ERR_SOCKET_BAD_PORT
           ∧ (err ≠ ERR_SOCKET_BAD_PORT → resultPromise cl ≠ Rejected err)
           ∧ data cl ∈ sent s'
           ∧ (truthy (timeout cl) = true → c ∈ timers s'))
  ∧ c ∈ listeners s' ∧ (c ∉ inflight s').
Proof.
  intros s Hin Hcn s'.
  pose proof (reachable_inv evs) as HI. fold s in HI.
  destruct (inv_ws _ _ _ _ _ HI c Hin) as (cl & Hc & Hs).
  destruct (inv_waiting _ _ _ _ _ HI c cl Hc Hs) as [Hp _].
  unfold waiting in Hin.
  destruct (connecting s) as [ws|] eqn:Hw; [|set_solver]. simpl in Hin.
  assert (Hs' : s' = foldl (λ s c, executor c s) (with_connecting None s) ws).
  { unfold s'. cbn [step]. by apply connect_done_resumes. }
  assert (HIw : InvW ws (with_connecting None s)).
  { unfold Inv, waiting in HI. rewrite Hw in HI. exact HI. }
  destruct (resume_fields ws _ c cl HIw Hin Hc) as (Hl & Ht & _ & Hd).
  assert (Hc' : calls s' !! c = Some (refused_call c cl)).
  { rewrite Hs', (resume_call ws _ c cl HIw Hc), decide_True by done.
    unfold started_record. simpl. by rewrite Hcn. }
  assert (Hr : resultPromise (refused_call c cl) = Rejected ERR_SOCKET_BAD_PORT).
  { simpl. by rewrite Hp. }
  split_and!.
  - rewrite Hs'. by rewrite (proj1 (proj2 (resume_conn _ _))).
  - rewrite Hs'. by rewrite (proj1 (resume_conn _ _)).
  - exists (refused_call c cl). split_and!; [done|done|done| |by rewrite Hs'|].
    + intros Hne. rewrite Hr. congruence.
    + intros Htr. rewrite Hs'. by apply Ht.
  - by rewrite Hs'.
  - rewrite Hs', resume_refused by done. simpl. intros Hf.
    destruct (inv_inflight _ _ _ _ _ HI c Hf) as (? & ? & ?). congruence.
Qed.

Lemma sends_attach (args : list (@SendArgs ResponseType)) : ∀ s ws,
  connected s = false → connecting s = Some ws →
  let s' := run s (send_event <$> args) in
  connect_calls s' = connect_calls s
  ∧ connecting s' = Some (ws ++ seq (length (calls s)) (length args))
  ∧ connected s' = false.
Proof.
  induction args as [|[[[d pf] m] t] r IH]; intros s ws Hcn Hw.
  { simpl. by rewrite app_nil_r. }
  rewrite fmap_cons, run_cons. cbn [send_event step length].
  assert (Hsend : connect_calls (send d pf m t s) = connect_calls s
                  ∧ connecting (send d pf m t s) = Some (ws ++ [length (calls s)])
                  ∧ connected (send d pf m t s) = false).
  { unfold send, _isConnected, remoteAddress. simpl. rewrite Hcn.
    unfold await_connect, _connect, reusePromise. simpl. rewrite Hw. simpl.
    by rewrite Hw. }
  destruct Hsend as (Hs1 & Hs2 & Hs3).
  destruct (IH (send d pf m t s) _ Hs3 Hs2) as (H1 & H2 & H3).
  split_and!; [congruence| |done].
  rewrite H2, <- (assoc_L (++)). simpl.
  pose proof (step_length s (EvSend d pf m t)) as Hlen. simpl in Hlen.
  by rewrite Hlen.
Qed.

(** C3.  However many [send] calls are made while the socket is not
    connected and no connect is in flight, [socket.connect] is invoked once
    for all of them, and all of them await that one attempt. *)
Theorem concurrent_sends_connect_once s (args : list (@SendArgs ResponseType)) :
  _isConnected s = false → connecting s = None → args ≠ [] →
  let s' := run s (send_event <$> args) in
  connect_calls s' = S (connect_calls s)
  ∧ connecting s' = Some (seq (length (calls s)) (length args))
  ∧ _isConnected s' = false.
Proof.
  intros Hcon Hw Hne.
  destruct args as [|[[[d pf] m] t] r]; [done|].
  rewrite fmap_cons, run_cons. cbn [send_event step length].
  assert (Hcn : connected s = false).
  { unfold _isConnected, remoteAddress in Hcon. by destruct (connected s). }
  assert (Hsend : connect_calls (send d pf m t s) = S (connect_calls s)
                  ∧ connecting (send d pf m t s) = Some [length (calls s)]
                  ∧ connected (send d pf m t s) = false).
  { unfold send, _isConnected, remoteAddress. simpl. rewrite Hcn.
    unfold await_connect, _connect, reusePromise. simpl. by rewrite Hw. }
  destruct Hsend as (Hs1 & Hs2 & Hs3).
  destruct (sends_attach r (send d pf m t s) _ Hs3 Hs2) as (H1 & H2 & H3).
  pose proof (step_length s (EvSend d pf m t)) as Hlen. simpl in Hlen.
  split_and!; [congruence|by rewrite H2, Hlen|].
  unfold _isConnected, remoteAddress. by rewrite H3.
Qed.

End Proofs.

(** * The calls side by side *)

Section Calls.
Context {ResponseType : Type}.
Implicit Types (s : @Socket ResponseType) (cl : @Call ResponseType)
  (cs : list (@Call ResponseType)) (p : @Promise ResponseType)
  (ev : @Event ResponseType) (evs : list (@Event ResponseType))
  (c h : nat) (ws ls : list nat) (ts fs : gset nat) (msg : Buffer)
  (e : JsError) (v : ResponseType).

(** ** Who is registered, whose timer is armed *)

(** X1.  In every state the event loop reaches, no call has two listeners
    on the socket; every call that has passed the connect step and is still
    pending has its listener registered; and a registered listener belongs
    to a call that has passed the connect step and is either pending or was
    rejected by the exception of [socket.send], with no send callback
    owed. *)
Theorem listeners_are_the_pending_calls evs c :
  let s := run constructor evs in
  NoDup (listeners s)
  ∧ (∀ cl, calls s !! c = Some cl → started cl = true →
           resultPromise cl = Pending → c ∈ listeners s)
  ∧ (c ∈ listeners s →
     ∃ cl, calls s !! c = Some cl ∧ started cl = true
           ∧ (resultPromise cl = Pending
              ∨ (resultPromise cl = Rejected ERR_SOCKET_BAD_PORT
                 ∧ c ∉ inflight s))).
Proof.
  intros s. pose proof (reachable_inv evs) as HI. fold s in HI.
  split_and!.
  - apply (inv_nodup _ _ _ _ _ HI).
  - intros cl Hc Hs Hp. by apply (inv_pending _ _ _ _ _ HI c cl).
  - apply (inv_listener _ _ _ _ _ HI).
Qed.

(** X2.  In every state the event loop reaches, every started, pending call
    whose timeout is truthy has its timer armed; an armed timer belongs to
    a started call with a truthy timeout that is either pending or was
    rejected by the exception of [socket.send]; and the [timer] variable of
    a call holds a handle exactly when the call has started with a truthy
    timeout. *)
Theorem timers_are_the_pending_timeouts evs c :
  let s := run constructor evs in
  (∀ cl, calls s !! c = Some cl → started cl = true →
         resultPromise cl = Pending → truthy (timeout cl) = true →
         c ∈ timers s)
  ∧ (c ∈ timers s →
     ∃ cl, calls s !! c = Some cl ∧ started cl = true
           ∧ truthy (timeout cl) = true
           ∧ (resultPromise cl = Pending
              ∨ (resultPromise cl = Rejected ERR_SOCKET_BAD_PORT
                 ∧ c ∉ inflight s)))
  ∧ (∀ cl, calls s !! c = Some cl →
     (is_Some (timer cl) ↔ started cl = true ∧ truthy (timeout cl) = true)).
Proof.
  intros s. pose proof (reachable_inv evs) as HI. fold s in HI.
  split_and!.
  - intros cl Hc Hs Hp Ht. by apply (inv_pending _ _ _ _ _ HI c cl).
  - intros Hin.
    destruct (inv_timer _ _ _ _ _ HI c Hin) as (cl & ? & ? & ? & ?). eauto 10.
  - intros cl Hc. rewrite (inv_timer_var _ _ _ _ _ HI c cl Hc).
    destruct (started cl), (truthy (timeout cl)); simpl;
      split; try done; try (by intros [? ?]); try (by intros [? [=]]).
    all: by eauto.
Qed.

(** ** A callback touches its own call only *)

(** X3.  The timeout of one call leaves every other call as it is: its
    record, its listener, its timer and its owed send callback. *)
Theorem timeout_touches_its_call_only s h c :
  c ≠ h →
  let s' := step s (EvTimer h) in
  calls s' !! c = calls s !! c
  ∧ (c ∈ listeners s' ↔ c ∈ listeners s)
  ∧ (c ∈ timers s' ↔ c ∈ timers s)
  ∧ inflight s' = inflight s ∧ sent s' = sent s.
Proof.
  intros Hne. simpl. destruct (decide (h ∈ timers s)) as [Hin|]; [|done].
  unfold onTimeout. rewrite update_call_lookup. rewrite decide_False by done.
  simpl. split_and!; [done| |set_solver|done|done].
  split; [apply remove_last_elem_of|by apply remove_last_keeps].
Qed.

(** X4.  A transport error of one call leaves every other call as it is:
    its record, its listener, its timer and its owed send callback. *)
Theorem transport_error_touches_its_call_only evs c0 c err :
  let s := run constructor evs in
  c ≠ c0 →
  let s' := step s (EvSendDone c0 err) in
  calls s' !! c = calls s !! c
  ∧ (c ∈ listeners s' ↔ c ∈ listeners s)
  ∧ (c ∈ timers s' ↔ c ∈ timers s)
  ∧ (c ∈ inflight s' ↔ c ∈ inflight s) ∧ sent s' = sent s.
Proof.
  intros s Hne. pose proof (reachable_inv evs) as HI. fold s in HI.
  simpl. destruct (decide (c0 ∈ inflight s)) as [Hin|]; [|done].
  destruct err as [e|]; simpl; [|split_and!; [done..|set_solver|done]].
  destruct (inv_inflight _ _ _ _ _ HI c0 Hin) as (cl0 & Hc0 & _).
  rewrite Hc0. rewrite update_call_lookup. rewrite decide_False by done.
  set (s1 := with_inflight (inflight s ∖ {[c0]}) s).
  assert (HI1 : InvW (waiting s) s1).
  { eapply InvC_inflight_subseteq; [|exact HI]. simpl. set_solver. }
  pose proof (clear_timer_of_timers _ s1 c0 cl0 c HI1 Hc0) as Ht.
  destruct (clear_timer_of_frame cl0 s1) as (Hl & Hcs & Hf & _).
  unfold removeListener. simpl. rewrite Hl, Hcs, Hf. simpl.
  split_and!; [done| |set_solver|set_solver|].
  - split; [apply remove_last_elem_of|by apply remove_last_keeps].
  - unfold clear_timer_of. by destruct (timer cl0).
Qed.

(** ** Datagrams *)

Lemma emit_to_unmatched ls msg s :
  (∀ c cl, c ∈ ls → calls s !! c = Some cl →
           ∃ v, parse cl msg = Normal v ∧ match_ cl v = false) →
  emit_to ls msg s = (s, None).
Proof.
  induction ls as [|c r IH]; intros Hno; simpl; [done|].
  assert (Ho : onMessage c msg s = (s, None)).
  { unfold onMessage. destruct (calls s !! c) as [cl|] eqn:Hc; [|done].
    destruct (Hno c cl) as (v & -> & ->); [set_solver|done|done]. }
  rewrite Ho. apply IH. intros c' cl' Hin. apply Hno. set_solver.
Qed.

(** X5.  A datagram that every registered listener parses and none matches
    changes nothing at all. *)
Theorem unmatched_datagram_changes_nothing s msg :
  (∀ c cl, c ∈ listeners s → calls s !! c = Some cl →
           ∃ v, parse cl msg = Normal v ∧ match_ cl v = false) →
  step s (EvMessage msg) = s.
Proof.
  intros Hno. simpl. unfold emit. by rewrite emit_to_unmatched.
Qed.

Lemma onMessage_keeps_other s c0 c msg :
  c ≠ c0 → c ∈ listeners s → c ∈ listeners (onMessage c0 msg s).1.
Proof.
  intros Hne Hin. unfold onMessage. destruct (calls s !! c0) as [cl0|]; [|done].
  destruct (parse cl0 msg) as [v0|]; [|done].
  destruct (match_ cl0 v0); [|done].
  simpl. destruct (clear_timer_of_frame cl0 s) as (-> & _).
  by apply remove_last_keeps.
Qed.

(** A listener that is not among those the datagram is offered to stays
    registered. *)
Lemma emit_to_keeps_others ls msg c : ∀ s,
  c ∉ ls → c ∈ listeners s → c ∈ listeners (emit_to ls msg s).1.
Proof.
  induction ls as [|c0 r IH]; intros s Hn Hin; simpl; [done|].
  pose proof (onMessage_keeps_other s c0 c msg) as Hk.
  destruct (onMessage c0 msg s) as [s1 [e1|]]; simpl in *.
  - apply Hk; [set_solver|done].
  - apply IH; [set_solver|]. apply Hk; [set_solver|done].
Qed.

(** A listener leaves the record, the listener and the timer of a call
    alone unless it is that call's own and the datagram matches. *)
Lemma onMessage_keeps ws s c0 c cl msg :
  InvW ws s → calls s !! c = Some cl →
  (∀ v, parse cl msg = Normal v → match_ cl v = false) →
  calls (onMessage c0 msg s).1 !! c = Some cl
  ∧ (c ∈ listeners s → c ∈ listeners (onMessage c0 msg s).1)
  ∧ (c ∈ timers s → c ∈ timers (onMessage c0 msg s).1).
Proof.
  intros HI Hc Hno. unfold onMessage.
  destruct (calls s !! c0) as [cl0|] eqn:Hc0; [|done].
  destruct (parse cl0 msg) as [v0|] eqn:Hp; [|done].
  destruct (match_ cl0 v0) eqn:Hm; [|done].
  assert (Hne : c ≠ c0).
  { intros ->. simplify_eq. rewrite (Hno v0 Hp) in Hm. done. }
  cbn [fst]. rewrite update_call_lookup, decide_False by done.
  unfold removeListener; cbn [calls listeners timers with_listeners update_call
                               with_calls].
  pose proof (clear_timer_of_timers _ s c0 cl0 c HI Hc0) as Ht.
  destruct (clear_timer_of_frame cl0 s) as (-> & -> & _).
  split_and!; [done| |].
  - by apply remove_last_keeps.
  - intros Hin. apply Ht. done.
Qed.

Lemma emit_to_keeps ws ls msg c cl : ∀ s,
  InvW ws s →
  (∀ c' cl', c' ∈ ls → calls s !! c' = Some cl' → started cl' = true) →
  calls s !! c = Some cl →
  (∀ v, parse cl msg = Normal v → match_ cl v = false) →
  calls (emit_to ls msg s).1 !! c = Some cl
  ∧ (c ∈ listeners s → c ∈ listeners (emit_to ls msg s).1)
  ∧ (c ∈ timers s → c ∈ timers (emit_to ls msg s).1).
Proof.
  induction ls as [|c0 r IH]; intros s HI Hst Hc Hno; simpl; [done|].
  destruct (onMessage_keeps ws s c0 c cl msg HI Hc Hno) as (K1 & K2 & K3).
  assert (HI1 : InvW ws (onMessage c0 msg s).1).
  { apply onMessage_inv; [done|]. intros cl0 Hc0. apply (Hst c0); [set_solver|done]. }
  assert (Hst1 : ∀ c' cl', c' ∈ r → calls (onMessage c0 msg s).1 !! c' = Some cl'
                            → started cl' = true).
  { intros c' cl' Hin Hl.
    destruct (onMessage_call_back s c0 c' msg cl' Hl) as (cl0 & Hl0 & Ha).
    apply Ha. apply (Hst c'); [set_solver|done]. }
  destruct (onMessage c0 msg s) as [s1 [e1|]]; simpl in *; [done|].
  destruct (IH s1 HI1 Hst1 K1 Hno) as (I1 & I2 & I3). auto.
Qed.

Lemma message_keeps s c cl msg :
  Inv s → calls s !! c = Some cl →
  (∀ v, parse cl msg = Normal v → match_ cl v = false) →
  calls (step s (EvMessage msg)) !! c = Some cl
  ∧ (c ∈ listeners s → c ∈ listeners (step s (EvMessage msg)))
  ∧ (c ∈ timers s → c ∈ timers (step s (EvMessage msg))).
Proof.
  intros HI Hc Hno. simpl. unfold emit.
  assert (Hst : ∀ c' cl', c' ∈ listeners s → calls s !! c' = Some cl'
                           → started cl' = true).
  { intros c' cl' Hin Hl.
    destruct (inv_listener _ _ _ _ _ HI c' Hin) as (? & ? & ? & _). congruence. }
  pose proof (emit_to_keeps _ (listeners s) msg c cl s HI Hst Hc Hno) as Hk.
  by destruct (emit_to (listeners s) msg s) as [s2 [e2|]].
Qed.

Lemma message_resolves s c cl msg v :
  c ∈ listeners s → calls s !! c = Some cl → resultPromise cl = Pending →
  parse cl msg = Normal v → match_ cl v = true →
  (∀ c' cl' e, c' ∈ listeners s → calls s !! c' = Some cl' →
               parse cl' msg ≠ Throw e) →
  promise_of c (step s (EvMessage msg)) = Some (Fulfilled v).
Proof.
  intros Hin Hc Hp Hpa Hm Hno. simpl. unfold emit.
  pose proof (emit_to_resolves (listeners s) msg c v s cl Hin Hc Hp Hpa Hm Hno)
    as Hres.
  by destruct (emit_to (listeners s) msg s) as [s2 [e2|]].
Qed.

Lemma onMessage_listeners_sub s c c' msg :
  c' ∈ listeners (onMessage c msg s).1 → c' ∈ listeners s.
Proof.
  unfold onMessage. destruct (calls s !! c) as [cl|]; [|done].
  destruct (parse cl msg); [|done]. destruct (match_ cl a); [|done].
  simpl. destruct (clear_timer_of_frame cl s) as (-> & _).
  apply remove_last_elem_of.
Qed.

Lemma emit_to_listeners_sub ls : ∀ s c' msg,
  c' ∈ listeners (emit_to ls msg s).1 → c' ∈ listeners s.
Proof.
  induction ls as [|c r IH]; intros s c' msg; simpl; [done|].
  pose proof (onMessage_listeners_sub s c c' msg) as Ho.
  destruct (onMessage c msg s) as [s1 [e1|]]; simpl in *; [done|].
  intros Hin. by apply Ho, (IH s1 c' msg).
Qed.

Lemma message_listeners_sub s c msg :
  c ∈ listeners (step s (EvMessage msg)) → c ∈ listeners s.
Proof.
  simpl. unfold emit.
  pose proof (emit_to_listeners_sub (listeners s) s c msg) as Hsub.
  by destruct (emit_to (listeners s) msg s) as [s2 [e2|]].
Qed.

Lemma step_call_back s ev c cl' :
  Inv s → (∀ d pf m t, ev ≠ EvSend d pf m t) →
  calls (step s ev) !! c = Some cl' →
  ∃ cl, calls s !! c = Some cl ∧ call_evolves cl cl'.
Proof.
  intros HI Hev Hc'.
  destruct (calls s !! c) as [cl|] eqn:Hc.
  - destruct (step_call s ev c cl HI Hc) as (cl2 & Hc2 & Hst). simplify_eq.
    exists cl. split; [done|]. by eapply call_step_args.
  - apply lookup_ge_None in Hc. apply lookup_lt_Some in Hc'.
    rewrite step_length in Hc'. destruct ev; try lia.
    by edestruct Hev.
Qed.

(** Two datagrams, each for one of two calls, settle both. *)
Lemma two_datagrams s c1 c2 cl1 cl2 m1 m2 v1 v2 :
  Inv s →
  c1 ∈ listeners s → c2 ∈ listeners s →
  calls s !! c1 = Some cl1 → calls s !! c2 = Some cl2 →
  resultPromise cl1 = Pending → resultPromise cl2 = Pending →
  parse cl1 m1 = Normal v1 → match_ cl1 v1 = true →
  parse cl2 m2 = Normal v2 → match_ cl2 v2 = true →
  (∀ v, parse cl2 m1 = Normal v → match_ cl2 v = false) →
  (∀ c cl e, c ∈ listeners s → calls s !! c = Some cl →
             parse cl m1 ≠ Throw e ∧ parse cl m2 ≠ Throw e) →
  promise_of c1 (run s [EvMessage m1; EvMessage m2]) = Some (Fulfilled v1)
  ∧ promise_of c2 (run s [EvMessage m1; EvMessage m2]) = Some (Fulfilled v2).
Proof.
  intros HI Hl1 Hl2 Hc1 Hc2 Hpe1 Hpe2 Hp1 Hm1 Hp2 Hm2 Hdis Hno.
  change (run s [EvMessage m1; EvMessage m2])
    with (step (step s (EvMessage m1)) (EvMessage m2)).
  set (s1 := step s (EvMessage m1)).
  assert (HI1 : Inv s1) by (by apply step_inv).
  assert (Hr1 : promise_of c1 s1 = Some (Fulfilled v1)).
  { apply (message_resolves s c1 cl1 m1 v1); try done.
    intros c' cl' e Hin Hc'. by apply (Hno c' cl' e). }
  destruct (message_keeps s c2 cl2 m1 HI Hc2 Hdis) as (Hk & Hkl & _).
  fold s1 in Hk, Hkl. split.
  - apply promise_of_Some in Hr1 as (cl1' & Hc1' & Hp1').
    apply promise_of_Some. exists cl1'. split; [|done].
    apply step_settled; [done..|]. by rewrite Hp1'.
  - apply (message_resolves s1 c2 cl2 m2 v2); auto.
    intros c' cl' e Hin Hc'.
    destruct (step_call_back s (EvMessage m1) c' cl' HI) as (cl0 & Hc0 & Ha);
      [done|done|].
    destruct Ha as (_ & -> & _).
    apply (Hno c' cl0 e); [|done]. by eapply message_listeners_sub.
Qed.

(** X6.  A datagram changes a call only if the call's [match] accepts what
    the call's [parse] makes of it: otherwise the call keeps its record, its
    listener and its timer, whatever the datagram does to other calls. *)
Theorem datagram_touches_matching_calls_only evs c cl msg :
  let s := run constructor evs in
  calls s !! c = Some cl →
  (∀ v, parse cl msg = Normal v → match_ cl v = false) →
  let s' := step s (EvMessage msg) in
  calls s' !! c = Some cl
  ∧ (c ∈ listeners s → c ∈ listeners s')
  ∧ (c ∈ timers s → c ∈ timers s').
Proof.
  intros s Hc Hno s'. apply message_keeps; [apply reachable_inv|done..].
Qed.

(** X11.  Two pending calls with their listeners registered, whose
    datagrams do not match each other's predicate, are each resolved with
    their own value, whichever of the two datagrams arrives first (provided
    no listener throws on either). *)
Theorem two_calls_resolve_in_either_order evs c1 c2 cl1 cl2 m1 m2 v1 v2 :
  let s := run constructor evs in
  c1 ∈ listeners s → c2 ∈ listeners s →
  calls s !! c1 = Some cl1 → calls s !! c2 = Some cl2 →
  resultPromise cl1 = Pending → resultPromise cl2 = Pending →
  parse cl1 m1 = Normal v1 → match_ cl1 v1 = true →
  parse cl2 m2 = Normal v2 → match_ cl2 v2 = true →
  (∀ v, parse cl1 m2 = Normal v → match_ cl1 v = false) →
  (∀ v, parse cl2 m1 = Normal v → match_ cl2 v = false) →
  (∀ c cl e, c ∈ listeners s → calls s !! c = Some cl →
             parse cl m1 ≠ Throw e ∧ parse cl m2 ≠ Throw e) →
  (promise_of c1 (run s [EvMessage m1; EvMessage m2]) = Some (Fulfilled v1)
   ∧ promise_of c2 (run s [EvMessage m1; EvMessage m2]) = Some (Fulfilled v2))
  ∧ (promise_of c1 (run s [EvMessage m2; EvMessage m1]) = Some (Fulfilled v1)
     ∧ promise_of c2 (run s [EvMessage m2; EvMessage m1])
       = Some (Fulfilled v2)).
Proof.
  intros s Hl1 Hl2 Hc1 Hc2 Hpe1 Hpe2 Hp1 Hm1 Hp2 Hm2 Hd1 Hd2 Hno.
  pose proof (reachable_inv evs) as HI. fold s in HI. split.
  - by apply (two_datagrams s c1 c2 cl1 cl2 m1 m2 v1 v2).
  - apply and_comm.
    apply (two_datagrams s c2 c1 cl2 cl1 m2 m1 v2 v1); try done.
    intros c cl e Hin Hc. apply and_comm. by apply (Hno c cl e).
Qed.

(** ** An exception ends the dispatch *)

Lemma emit_to_app l1 l2 msg : ∀ s,
  emit_to (l1 ++ l2) msg s
  = match emit_to l1 msg s with
    | (s', Some e) => (s', Some e)
    | (s', None) => emit_to l2 msg s'
    end.
Proof.
  induction l1 as [|c r IH]; intros s; simpl; [done|].
  destruct (onMessage c msg s) as [s1 [e1|]]; [done|]. apply IH.
Qed.

(** X12.  When the [parse] of a call throws on a datagram, the calls whose
    listeners were registered after it are not offered the datagram: their
    records are unchanged and their listeners stay registered, whatever
    their [match] would have said. *)
Theorem exception_ends_the_dispatch evs l1 l2 c cl msg e c' :
  let s := run constructor evs in
  listeners s = l1 ++ c :: l2 →
  calls s !! c = Some cl → parse cl msg = Throw e →
  c' ∈ l2 →
  let s' := step s (EvMessage msg) in
  calls s' !! c' = calls s !! c' ∧ c' ∈ listeners s'
  ∧ ∃ e', uncaught s' = uncaught s ++ [e'].
Proof.
  intros s Hls Hc Hp Hin s'.
  pose proof (reachable_inv evs) as HI. fold s in HI.
  assert (HI' : Inv s') by (by apply step_inv).
  pose proof (inv_nodup _ _ _ _ _ HI) as Hnd. rewrite Hls in Hnd.
  apply NoDup_app in Hnd as (_ & Hdis & Hnd2).
  apply NoDup_cons in Hnd2 as [Hcl2 _].
  assert (Hl' : c' ∈ listeners s) by (rewrite Hls; set_solver).
  destruct (inv_listener _ _ _ _ _ HI c' Hl') as (cl' & Hc' & Hs' & _).
  assert (Hn1 : c' ∉ l1) by (intros Hi; apply (Hdis c' Hi); set_solver).
  assert (Hnc : c ∉ l1) by (intros Hi; apply (Hdis c Hi); set_solver).
  assert (Hstep : ∃ e', s' = with_uncaught (uncaught (emit_to l1 msg s).1 ++ [e'])
                                 (emit_to l1 msg s).1).
  { unfold s'. simpl. unfold emit. rewrite Hls, emit_to_app.
    destruct (emit_to_call l1 s c msg cl Hc) as (cl1 & Hc1 & Hcase).
    destruct (emit_to l1 msg s) as [s1 [e1|]]; simpl in *; [eauto|].
    destruct Hcase as [->|(? & _)]; [|done].
    rewrite (onMessage_throw s1 c cl msg e) by done. eauto. }
  destruct Hstep as (e' & Hs1).
  destruct (emit_to_call l1 s c' msg cl' Hc') as (cl2 & Hc2 & Hcase).
  destruct Hcase as [->|(? & _)]; [|done].
  assert (Hcs : calls s' !! c' = Some cl') by (by rewrite Hs1).
  split_and!.
  - by rewrite Hcs, Hc'.
  - rewrite Hs1. simpl. by apply emit_to_keeps_others.
  - exists e'. rewrite Hs1. simpl. by rewrite emit_to_uncaught.
Qed.


(** ** The connection *)

Lemma sendCallback_conn s c err :
  connecting (sendCallback c err s) = connecting s
  ∧ connected (sendCallback c err s) = connected s
  ∧ connect_calls (sendCallback c err s) = connect_calls s.
Proof.
  unfold sendCallback. destruct err as [e|]; [|done].
  destruct (calls s !! c) as [cl|]; [|done]. simpl.
  unfold clear_timer_of. by destruct (timer cl).
Qed.

(** Any event but the completion of a connect leaves the connection as it
    is, apart from [send] starting an attempt or joining the one in flight. *)
Lemma step_conn s ev :
  (∀ err, ev ≠ EvConnect err) →
  (ev ≠ EvConnected → connected (step s ev) = connected s)
  ∧ match ev with
    | EvSend _ _ _ _ =>
        if connected s then
          connecting (step s ev) = connecting s
          ∧ connect_calls (step s ev) = connect_calls s
        else
          connecting (step s ev)
          = Some (default [] (connecting s) ++ [length (calls s)])
          ∧ connect_calls (step s ev)
            = (if connecting s is Some _ then connect_calls s
               else S (connect_calls s))
    | _ => connecting (step s ev) = connecting s
           ∧ connect_calls (step s ev) = connect_calls s
    end.
Proof.
  intros Hev. destruct ev as [d pf m t| |err|msg|h|c err]; simpl.
  - unfold send, _isConnected, remoteAddress. simpl.
    destruct (connected s) eqn:Hc.
    + destruct (executor_conn
        (with_calls (calls s ++ [MkCall d pf m (default (Num 5000) t) false None
                                        Pending]) s) (length (calls s)))
        as (-> & -> & ->). simpl. by rewrite Hc.
    + unfold await_connect, _connect, reusePromise, _connect_body. simpl.
      destruct (connecting s) eqn:Hw; simpl; rewrite ?Hw; simpl; by rewrite ?Hc.
  - unfold connect_marked. by destruct (connecting s) eqn:Hw.
  - by destruct (Hev err).
  - unfold emit. destruct (emit_to_conn (listeners s) s msg) as (H1 & H2 & H3 & _).
    by destruct (emit_to (listeners s) msg s) as [s' [e'|]].
  - by destruct (decide (h ∈ timers s)).
  - destruct (decide (c ∈ inflight s)); [|done].
    by destruct (sendCallback_conn (with_inflight (inflight s ∖ {[c]}) s) c err)
      as (-> & -> & ->).
Qed.

Lemma connect_or_not ev :
  (∃ err, ev = EvConnect err) ∨ (∀ err, ev ≠ EvConnect err).
Proof. destruct ev; eauto. Qed.

(** The connect callback leaves the connect state of the socket as dgram
    has set it, and invokes no connect. *)
Lemma connect_done_connected s err :
  connected (connect_done err s) = connected s
  ∧ connect_calls (connect_done err s) = connect_calls s
  ∧ (connecting s = None → connecting (connect_done err s) = None).
Proof.
  destruct (connect_done_cases s err) as [(ws & Hw & Hcn & ->)| ->]; [|done].
  by destruct (resume_conn ws (with_connecting None s)) as (-> & -> & ->).
Qed.

Lemma step_connected s ev :
  connected s = true →
  connected (step s ev) = true
  ∧ connect_calls (step s ev) = connect_calls s
  ∧ (connecting s = None → connecting (step s ev) = None).
Proof.
  intros Hc.
  destruct (connect_or_not ev) as [[err ->]|Hne].
  { destruct (connect_done_connected s err) as (H1 & H2 & H3).
    simpl. rewrite H1, H2. done. }
  destruct (step_conn s ev Hne) as [H1 H2].
  destruct ev as [d pf m t| |err|msg|h|c err];
    try (rewrite H1 by done; destruct H2 as [-> ->]; done).
  - rewrite H1 by done. rewrite Hc in H2. by destruct H2 as [-> ->].
  - simpl. unfold connect_marked. by destruct (connecting s) eqn:Hw.
Qed.

(** X7.  Once the socket is connected it stays connected and
    [socket.connect] is never invoked again, whatever calls and events
    follow; and once the connect callback has run, no connect is in flight
    again. *)
Theorem connected_once_and_for_all evs evs' :
  let s := run constructor evs in
  connected s = true →
  _isConnected (run s evs') = true
  ∧ connect_calls (run s evs') = connect_calls s
  ∧ (connecting s = None → connecting (run s evs') = None).
Proof.
  intros s Hc.
  assert (H : connected (run s evs') = true
              ∧ connect_calls (run s evs') = connect_calls s
              ∧ (connecting s = None → connecting (run s evs') = None)).
  { clearbody s. revert s Hc.
    induction evs' as [|ev r IH]; intros s Hc; simpl; [done|].
    destruct (step_connected s ev Hc) as (H1 & H2 & H3).
    destruct (IH (step s ev) H1) as (? & ? & ?).
    split_and!; [done|congruence|auto]. }
  destruct H as (H1 & H2 & H3). split_and!; [|done|done].
  unfold _isConnected, remoteAddress. by rewrite H1.
Qed.

(** ** Calls awaiting the connect *)

Lemma step_waiting s ev c :
  c ∈ waiting s → (∀ err, ev ≠ EvConnect err) →
  c ∈ waiting (step s ev).
Proof.
  intros Hin Hev. unfold waiting in *.
  destruct (connecting s) as [ws|] eqn:Hw; [|set_solver]. simpl in Hin.
  destruct (step_conn s ev Hev) as [_ H2].
  destruct ev; try (destruct H2 as [-> _]; rewrite Hw; done).
  destruct (connected s).
  - destruct H2 as [-> _]. by rewrite Hw.
  - rewrite Hw in H2. destruct H2 as [-> _]. simpl. set_solver.
Qed.

(** X8.  A call that awaits the connect has done nothing yet and nothing
    but the completion of the connect moves it: it is pending, it has no
    listener, no timer and no transmission, and every other event leaves its
    record unchanged and the call waiting.  In particular its timeout does
    not run while the connect is in flight. *)
Theorem waiting_call_is_untouched evs c ev :
  let s := run constructor evs in
  c ∈ waiting s → (∀ err, ev ≠ EvConnect err) →
  promise_of c s = Some Pending
  ∧ (c ∉ listeners s) ∧ (c ∉ timers s) ∧ (c ∉ inflight s)
  ∧ calls (step s ev) !! c = calls s !! c
  ∧ c ∈ waiting (step s ev).
Proof.
  intros s Hin Hev. pose proof (reachable_inv evs) as HI. fold s in HI.
  destruct (inv_ws _ _ _ _ _ HI c Hin) as (cl & Hc & Hs).
  destruct (inv_waiting _ _ _ _ _ HI c cl Hc Hs) as [Hp _].
  pose proof (step_waiting s ev c Hin Hev) as Hin'.
  split_and!.
  - apply promise_of_Some. eauto.
  - intros Hl. destruct (inv_listener _ _ _ _ _ HI c Hl)
      as (? & ? & ? & _). congruence.
  - intros Hl. destruct (inv_timer _ _ _ _ _ HI c Hl)
      as (? & ? & ? & _). congruence.
  - intros Hl. destruct (inv_inflight _ _ _ _ _ HI c Hl)
      as (? & ? & ?). congruence.
  - destruct (step_call s ev c cl HI Hc) as (cl' & Hc' & Hst). rewrite Hc, Hc'.
    destruct (inv_ws _ _ _ _ _ (step_inv s ev HI) c Hin')
      as (cl2 & Hc2 & Hs2). simplify_eq.
    destruct Hst as [|_|err _ _|p' Hst _ _]; [done| | |congruence];
      simpl in Hs2; done.
  - done.
Qed.

Lemma waiting_sorted evs :
  StronglySorted lt (waiting (run (ResponseType:=ResponseType) constructor evs)).
Proof.
  induction evs as [|ev evs IH] using rev_ind; [constructor|].
  rewrite run_snoc. set (s := run constructor evs) in *.
  pose proof (reachable_inv evs) as HI. fold s in HI.
  destruct (connect_or_not ev) as [[err ->]|Hne].
  { simpl. destruct (connect_done_cases s err) as [(ws & Hw & Hcn & ->)| ->];
      [|done].
    unfold waiting. rewrite (proj1 (resume_conn _ _)). simpl. constructor. }
  destruct (step_conn s ev Hne) as [_ H2].
  unfold waiting in *.
  destruct ev; try (destruct H2 as [-> _]; done).
  destruct (connected s); [by destruct H2 as [-> _]|].
  destruct H2 as [-> _]. simpl. apply StronglySorted_app_2; [|done|].
  - intros x1 x2 Hx1 Hx2. apply list_elem_of_singleton in Hx2 as ->.
    destruct (inv_ws _ _ _ _ _ HI x1 Hx1) as (cl & Hl & _).
    by eapply lookup_lt_Some.
  - repeat constructor.
Qed.

(** ** Transmissions *)




Lemma executor_tx s c cl :
  calls s !! c = Some cl → started cl = false →
  sent (executor c s) = sent s ++ [data cl]
  ∧ listeners (executor c s) = listeners s ++ [c]
  ∧ started_calls (executor c s) = S (started_calls s).
Proof.
  intros Hc Hs. rewrite (executor_unfold s c cl Hc). unfold started_calls.
  destruct (truthy (timeout cl)), (connected s); simpl;
    (split_and!; [done|done|]);
    rewrite ?(filter_alter_same _ (settle (reject ERR_SOCKET_BAD_PORT))) by done;
    rewrite ?(filter_alter_same _ (set_timer c)) by done;
    (apply (filter_alter_new _ _ _ c cl); [done|by rewrite Hs|done]).
Qed.

Lemma payloads_ext s1 s2 ws :
  (∀ c, c ∈ ws → calls s1 !! c = calls s2 !! c) →
  payloads s1 ws = payloads s2 ws.
Proof.
  unfold payloads. induction ws as [|c r IH]; intros Hext; [done|].
  assert (IH' := IH (λ c' Hin, Hext c' (list_elem_of_further _ _ _ Hin))).
  simpl. rewrite (Hext c) by set_solver.
  destruct (data <$> calls s2 !! c); [f_equal|]; exact IH'.
Qed.

Lemma resume_tx ws : ∀ s,
  InvW ws s →
  listeners (foldl (λ s c, executor c s) s ws) = listeners s ++ ws
  ∧ sent (foldl (λ s c, executor c s) s ws) = sent s ++ payloads s ws
  ∧ length (payloads s ws) = length ws
  ∧ started_calls (foldl (λ s c, executor c s) s ws)
    = length ws + started_calls s.
Proof.
  induction ws as [|c r IH]; intros s HI; simpl.
  { by rewrite !app_nil_r. }
  destruct (inv_ws _ _ _ _ _ HI c) as (cl & Hc & Hs); [set_solver|].
  pose proof (inv_ws_nodup _ _ _ _ _ HI) as Hnd.
  apply NoDup_cons in Hnd as [Hcr _].
  destruct (executor_tx s c cl Hc Hs) as (H1 & H2 & H3).
  destruct (IH (executor c s) (executor_inv _ _ _ HI)) as (I1 & I2 & I3 & I4).
  assert (Hp : payloads (executor c s) r = payloads s r).
  { apply payloads_ext. intros c' Hin. apply executor_call_ne. set_solver. }
  unfold payloads at 2 3. simpl. rewrite Hc. simpl. fold (payloads s r).
  rewrite I1, I2, I4, H1, H2, H3, Hp in *.
  split_and!; [by rewrite <- (assoc_L (++))|by rewrite <- (assoc_L (++))| |lia].
  by rewrite I3.
Qed.



(** X10.  When the connect succeeds, the calls that awaited it are resumed
    in the order in which they were made: the socket is connected, their
    listeners are registered after the older ones and their payloads
    transmitted in that order, one each, and each of them is pending with
    its send in flight.  (Where dgram has marked the socket connected
    already, the first of the two events changes nothing.) *)
Theorem connect_resumes_waiters_in_order evs ws :
  let s := run constructor evs in
  connecting s = Some ws →
  let s' := step (step s EvConnected) (EvConnect None) in
  StronglySorted lt ws
  ∧ _isConnected s' = true ∧ connecting s' = None
  ∧ listeners s' = listeners s ++ ws
  ∧ sent s' = sent s ++ payloads s ws
  ∧ length (payloads s ws) = length ws
  ∧ ∀ c, c ∈ ws → promise_of c s' = Some Pending ∧ c ∈ inflight s'.
Proof.
  intros s Hw s'. pose proof (reachable_inv evs) as HI. fold s in HI.
  pose proof (waiting_sorted evs) as Hsort. fold s in Hsort.
  unfold waiting in Hsort. rewrite Hw in Hsort. simpl in Hsort.
  set (s0 := with_connecting None (with_connected true s)).
  assert (Hs1 : step s EvConnected = with_connected true s).
  { simpl. unfold connect_marked. by rewrite Hw. }
  assert (Hs' : s' = foldl (λ s c, executor c s) s0 ws).
  { unfold s'. rewrite Hs1. cbn [step]. by apply connect_done_resumes. }
  assert (HIw : InvW ws s0).
  { unfold Inv, waiting in HI. rewrite Hw in HI. exact HI. }
  destruct (resume_tx ws s0 HIw) as (H1 & H2 & H3 & _).
  destruct (resume_conn ws s0) as (Hc1 & Hc2 & _).
  split_and!; [done| | |by rewrite Hs', H1|by rewrite Hs', H2|exact H3|].
  - unfold _isConnected, remoteAddress. by rewrite Hs', Hc2.
  - by rewrite Hs', Hc1.
  - intros c Hin.
    destruct (inv_ws _ _ _ _ _ HIw c Hin) as (cl & Hc & Hst).
    destruct (inv_waiting _ _ _ _ _ HIw c cl Hc Hst) as [Hp _].
    destruct (resume_fields ws s0 c cl HIw Hin Hc) as (_ & _ & Hf & _).
    split; [|rewrite Hs'; by apply Hf].
    apply promise_of_Some. exists (start_call c cl). split; [|done].
    rewrite Hs', (resume_call ws s0 c cl HIw Hc). by rewrite decide_True.
Qed.

(** ** [_isConnected] and [send] on a connected socket *)

Lemma run_connected evs' : ∀ s,
  connected s = true → connected (run s evs') = true.
Proof.
  induction evs' as [|ev r IH]; intros s Hc; simpl; [done|].
  apply IH. by apply step_connected.
Qed.

(** X13.  [_isConnected] answers [true] exactly when dgram has connected
    the socket: a connect attempt of this socket was in flight and
    completed without error. *)
Theorem isConnected_after_successful_connect evs :
  _isConnected (run constructor evs) = true ↔
  ∃ evs1 evs2, evs = evs1 ++ EvConnected :: evs2
               ∧ is_Some (connecting (run constructor evs1)).
Proof.
  assert (Hic : ∀ s, _isConnected s = connected s).
  { intros s. unfold _isConnected, remoteAddress. by destruct (connected s). }
  rewrite Hic. split.
  - induction evs as [|ev evs IH] using rev_ind; [done|].
    rewrite run_snoc. set (s := run constructor evs) in *. intros Hc.
    destruct (connected s) eqn:Hcs.
    + destruct (IH eq_refl) as (evs1 & evs2 & -> & Hw).
      exists evs1, (evs2 ++ [ev]). split; [|done].
      by rewrite <- (assoc_L (++)).
    + destruct (connect_or_not ev) as [[err ->]|Hne].
      * simpl in Hc. rewrite (proj1 (connect_done_connected s err)) in Hc.
        congruence.
      * assert (Hm : ev = EvConnected ∨ ev ≠ EvConnected)
          by (destruct ev; auto).
        destruct Hm as [->|Hnm].
        -- exists evs, []. split; [done|]. fold s. simpl in Hc.
           unfold connect_marked in Hc.
           destruct (connecting s) as [ws|] eqn:Hw; [eauto|congruence].
        -- destruct (step_conn s ev Hne) as [H1 _]. rewrite H1 in Hc by done.
           congruence.
  - intros (evs1 & evs2 & -> & [ws Hw]).
    rewrite run_app, run_cons.
    apply run_connected. simpl. unfold connect_marked. by rewrite Hw.
Qed.

(** X14.  On a connected socket [send] transmits at once: [socket.connect]
    is not invoked, the payload given is handed to the socket, the listener
    of the new call is the youngest, the call is pending with its send in
    flight, its timer is armed exactly when its timeout is truthy, and the
    older calls are as they were. *)
Theorem send_on_connected_socket evs d pf m t :
  let s := run constructor evs in
  _isConnected s = true →
  let s' := send d pf m t s in
  let c := length (calls s) in
  connect_calls s' = connect_calls s
  ∧ sent s' = sent s ++ [d]
  ∧ listeners s' = listeners s ++ [c]
  ∧ promise_of c s' = Some Pending ∧ c ∈ inflight s'
  ∧ (c ∈ timers s' ↔ truthy (default (Num 5000) t) = true)
  ∧ ∀ c' cl', calls s !! c' = Some cl' → calls s' !! c' = Some cl'.
Proof.
  intros s Hcon s' c.
  pose proof (reachable_inv evs) as HI. fold s in HI.
  assert (HI' : Inv s') by (by apply send_inv).
  set (cl := MkCall d pf m (default (Num 5000) t) false None Pending).
  set (s0 := with_calls (calls s ++ [cl]) s).
  assert (Hs' : s' = executor c s0).
  { unfold s', send. fold cl s0.
    assert (_isConnected s0 = true) as -> by exact Hcon. done. }
  assert (Hcn : connected s0 = true).
  { unfold _isConnected, remoteAddress in Hcon. simpl.
    by destruct (connected s). }
  assert (Hc0 : calls s0 !! c = Some cl) by (apply lookup_snoc_Some; by right).
  destruct (executor_tx s0 c cl Hc0 eq_refl) as (H1 & H2 & _).
  destruct (executor_fields s0 c cl Hc0) as (_ & _ & Hf & _).
  assert (Hc' : calls s' !! c = Some (start_call c cl)).
  { rewrite Hs', (executor_call_eq s0 c cl) by done.
    unfold started_record. by rewrite Hcn. }
  split_and!.
  - rewrite Hs'. by rewrite (proj2 (proj2 (executor_conn _ _))).
  - by rewrite Hs', H1.
  - by rewrite Hs', H2.
  - apply promise_of_Some. eauto.
  - rewrite Hs', Hf, Hcn. set_solver.
  - split.
    + intros Hin.
      destruct (inv_timer _ _ _ _ _ HI' c Hin) as (? & ? & _ & _ & Ht).
      by simplify_eq.
    + intros Ht. by apply (inv_pending _ _ _ _ _ HI' c (start_call c cl)).
  - intros c' cl' Hl. by apply send_call.
Qed.

End Calls.

(** * The theorems at work on the sample protocol *)

Lemma parse_failure_leaves_call_waiting_witness :
  let s := run constructor one_call in
  (calls s !! 0 = Some call_A ∧ 0 ∈ listeners s
   ∧ parse call_A [] = Throw (new_Error "empty datagram"))
  ∧ onMessage 0 [] s = (s, Some (new_Error "empty datagram"))
  ∧ exited ExitOnUncaught (step s (EvMessage [])) = true.
Proof.
  intros s.
  assert (H1 : calls s !! 0 = Some call_A) by by_evaluation.
  assert (H2 : 0 ∈ listeners s) by by_computation.
  assert (H3 : parse call_A [] = Throw (new_Error "empty datagram"))
    by by_evaluation.
  split; [exact (conj H1 (conj H2 H3))|].
  destruct (parse_failure_leaves_call_waiting one_call 0 call_A [] _ H1 H2 H3)
    as (Ha & _ & Hb & _).
  exact (conj Ha Hb).
Defined.




Lemma transport_error_rejects_pending_witness :
  let s := run constructor one_call in
  (calls s !! 0 = Some call_A ∧ 0 ∈ inflight s)
  ∧ promise_of 0 (step s (EvSendDone 0 (Some EPERM))) = Some (Rejected EPERM).
Proof.
  intros s.
  assert (H1 : calls s !! 0 = Some call_A) by by_evaluation.
  assert (H2 : 0 ∈ inflight s) by by_computation.
  split; [exact (conj H1 H2)|].
  destruct (transport_error_rejects_pending one_call 0 call_A EPERM H1 H2)
    as (_ & _ & Ha & _).
  exact (Ha eq_refl).
Defined.

Lemma timeout_told_by_message_only_witness :
  let s := run constructor one_call in
  (calls s !! 0 = Some call_A ∧ 0 ∈ timers s ∧ 0 ∈ inflight s)
  ∧ promise_of 0 (step s (EvTimer 0))
    = Some (Rejected (new_Error "Socket timeout"))
  ∧ promise_of 0 (step s (EvSendDone 0 (Some EPERM))) = Some (Rejected EPERM).
Proof.
  intros s.
  assert (H1 : calls s !! 0 = Some call_A) by by_evaluation.
  assert (H2 : 0 ∈ timers s) by by_computation.
  assert (H3 : 0 ∈ inflight s) by by_computation.
  split; [exact (conj H1 (conj H2 H3))|].
  destruct (timeout_told_by_message_only one_call 0 call_A EPERM H1 H2 H3)
    as (Ha & _ & Hb & _).
  exact (conj Ha Hb).
Defined.


Lemma connect_failure_resumes_waiters_witness :
  let s := run constructor (send_event <$> two_sends) in
  (1 ∈ waiting s ∧ connected s = false)
  ∧ connected (step s (EvConnect (Some ENETUNREACH))) = false
  ∧ connecting (step s (EvConnect (Some ENETUNREACH))) = None
  ∧ 1 ∈ listeners (step s (EvConnect (Some ENETUNREACH)))
  ∧ (1 ∉ inflight (step s (EvConnect (Some ENETUNREACH)))).
Proof.
  intros s.
  assert (H1 : 1 ∈ waiting s) by by_computation.
  assert (H2 : connected s = false) by by_evaluation.
  split; [exact (conj H1 H2)|].
  destruct (connect_failure_resumes_waiters (send_event <$> two_sends)
              ENETUNREACH 1 H1 H2) as (Ha & Hb & _ & Hc & Hd).
  exact (conj Ha (conj Hb (conj Hc Hd))).
Defined.

Lemma concurrent_sends_connect_once_witness :
  (_isConnected (constructor (ResponseType:=nat)) = false
   ∧ connecting (constructor (ResponseType:=nat)) = None ∧ two_sends ≠ [])
  ∧ connect_calls (run constructor (send_event <$> two_sends))
    = S (connect_calls (constructor (ResponseType:=nat))).
Proof.
  assert (H1 : _isConnected (constructor (ResponseType:=nat)) = false)
    by by_evaluation.
  assert (H2 : connecting (constructor (ResponseType:=nat)) = None)
    by by_evaluation.
  assert (H3 : two_sends ≠ []) by (intros H; discriminate H).
  split; [exact (conj H1 (conj H2 H3))|].
  exact (proj1 (concurrent_sends_connect_once constructor two_sends H1 H2 H3)).
Defined.

(** ** Where the code and the specification part *)

(** Against C1 as stated: on the default host the exception of [parse]
    ends the process, and the later datagram, whose parsed value the call
    would match, resolves nothing. *)
Lemma parse_exception_stops_the_default_host :
  let s := run_host ExitOnUncaught constructor (one_call ++ [EvMessage []]) in
  parse call_A [] = Throw (new_Error "empty datagram")
  ∧ uncaught s = [new_Error "empty datagram"]
  ∧ promise_of 0 s = Some Pending
  ∧ parse call_A payload_A = Normal 1 ∧ match_ call_A 1 = true
  ∧ promise_of 0 (run_host ExitOnUncaught s [EvMessage payload_A])
    = Some Pending
  ∧ promise_of 0 (run_host ExitOnUncaught s [EvMessage payload_A])
    ≠ Some (Fulfilled 1).
Proof.
  intros s. split_and!; [by_evaluation..|].
  vm_compute. intros H. discriminate H.
Qed.

(** Against C8 as stated: the timer of a call with a timeout of 1 ms fires
    before the send callback runs; the transport error reported afterwards
    does not become the outcome of the call. *)
Lemma late_transport_error_is_dropped :
  let s := run constructor timed_out_call in
  0 ∈ inflight s
  ∧ promise_of 0 (step s (EvSendDone 0 (Some EPERM)))
    = Some (Rejected timeout_error)
  ∧ promise_of 0 (step s (EvSendDone 0 (Some EPERM))) ≠ Some (Rejected EPERM).
Proof.
  intros s. split_and!; [by_computation|by_evaluation|].
  vm_compute. intros H. discriminate H.
Qed.



(** * The calls side by side, on the sample protocol *)

Lemma listeners_are_the_pending_calls_witness :
  let s := run constructor refused_send in
  0 ∈ listeners s
  ∧ ∃ cl, calls s !! 0 = Some cl ∧ started cl = true
          ∧ (resultPromise cl = Pending
             ∨ (resultPromise cl = Rejected ERR_SOCKET_BAD_PORT
                ∧ 0 ∉ inflight s)).
Proof.
  intros s.
  assert (H1 : 0 ∈ listeners s) by by_computation.
  split; [exact H1|].
  exact (proj2 (proj2 (listeners_are_the_pending_calls refused_send 0)) H1).
Defined.

Lemma timers_are_the_pending_timeouts_witness :
  let s := run constructor one_call in
  0 ∈ timers s
  ∧ ∃ cl, calls s !! 0 = Some cl ∧ started cl = true
          ∧ truthy (timeout cl) = true
          ∧ (resultPromise cl = Pending
             ∨ (resultPromise cl = Rejected ERR_SOCKET_BAD_PORT
                ∧ 0 ∉ inflight s)).
Proof.
  intros s.
  assert (H1 : 0 ∈ timers s) by by_computation.
  split; [exact H1|].
  exact (proj1 (proj2 (timers_are_the_pending_timeouts one_call 0)) H1).
Defined.

Lemma two_calls_cases c cl :
  c ∈ listeners (run constructor two_calls) →
  calls (run constructor two_calls) !! c = Some cl →
  cl = call_A ∨ cl = call_B.
Proof.
  assert (Hl : listeners (run constructor two_calls) = [0; 1]) by by_evaluation.
  assert (H0 : calls (run constructor two_calls) !! 0 = Some call_A)
    by by_evaluation.
  assert (H1 : calls (run constructor two_calls) !! 1 = Some call_B)
    by by_evaluation.
  rewrite Hl. intros Hin Hc.
  apply elem_of_cons in Hin as [->|Hin]; [left; congruence|].
  apply list_elem_of_singleton in Hin as ->. right; congruence.
Qed.

Lemma timeout_touches_its_call_only_witness :
  let s := run constructor two_calls in
  1 ≠ 0 ∧ calls (step s (EvTimer 0)) !! 1 = calls s !! 1.
Proof.
  intros s. assert (H1 : 1 ≠ 0) by lia. split; [exact H1|].
  exact (proj1 (timeout_touches_its_call_only s 0 1 H1)).
Defined.

Lemma transport_error_touches_its_call_only_witness :
  let s := run constructor two_calls in
  1 ≠ 0 ∧ calls (step s (EvSendDone 0 (Some EPERM))) !! 1 = calls s !! 1.
Proof.
  intros s. assert (H1 : 1 ≠ 0) by lia. split; [exact H1|].
  exact (proj1 (transport_error_touches_its_call_only two_calls 0 1
                  (Some EPERM) H1)).
Defined.

Lemma unmatched_datagram_changes_nothing_witness :
  let s := run constructor two_calls in
  step s (EvMessage [Byte.x03]) = s.
Proof.
  intros s. apply (unmatched_datagram_changes_nothing s [Byte.x03]).
  intros c cl Hin Hc. exists 3.
  destruct (two_calls_cases c cl Hin Hc) as [->| ->]; split; by_evaluation.
Defined.

Lemma datagram_touches_matching_calls_only_witness :
  let s := run constructor two_calls in
  calls s !! 1 = Some call_B
  ∧ calls (step s (EvMessage payload_A)) !! 1 = Some call_B.
Proof.
  intros s.
  assert (H1 : calls s !! 1 = Some call_B) by by_evaluation.
  assert (H2 : ∀ v, parse call_B payload_A = Normal v → match_ call_B v = false).
  { intros v Hv. vm_compute in Hv. injection Hv as <-. by_evaluation. }
  split; [exact H1|].
  exact (proj1 (datagram_touches_matching_calls_only two_calls 1 call_B
                  payload_A H1 H2)).
Defined.

Lemma connected_once_and_for_all_witness :
  let s := run constructor one_call in
  let later := [EvSend payload_B parseEcho (has_id 2) None; EvConnect None] in
  connected s = true ∧ connect_calls (run s later) = connect_calls s.
Proof.
  intros s later.
  assert (H1 : connected s = true) by by_evaluation.
  split; [exact H1|].
  exact (proj1 (proj2 (connected_once_and_for_all one_call later H1))).
Defined.

Lemma waiting_call_is_untouched_witness :
  let s := run constructor (send_event <$> two_sends) in
  1 ∈ waiting s
  ∧ promise_of 1 s = Some Pending
  ∧ calls (step s (EvMessage payload_B)) !! 1 = calls s !! 1.
Proof.
  intros s.
  assert (H1 : 1 ∈ waiting s) by by_computation.
  assert (H2 : ∀ err, EvMessage payload_B ≠ @EvConnect nat err)
    by (intros err H; discriminate H).
  split; [exact H1|].
  destruct (waiting_call_is_untouched (send_event <$> two_sends) 1
              (EvMessage payload_B) H1 H2) as (Ha & _ & _ & _ & Hb & _).
  exact (conj Ha Hb).
Defined.

Lemma connect_resumes_waiters_in_order_witness :
  let s := run constructor (send_event <$> two_sends) in
  connecting s = Some [0; 1]
  ∧ listeners (step (step s EvConnected) (EvConnect None))
    = listeners s ++ [0; 1]
  ∧ sent (step (step s EvConnected) (EvConnect None))
    = sent s ++ payloads s [0; 1].
Proof.
  intros s.
  assert (H1 : connecting s = Some [0; 1]) by by_evaluation.
  split; [exact H1|].
  destruct (connect_resumes_waiters_in_order (send_event <$> two_sends) [0; 1]
              H1) as (_ & _ & _ & Ha & Hb & _).
  exact (conj Ha Hb).
Defined.

Lemma two_calls_resolve_in_either_order_witness :
  let s := run constructor two_calls in
  promise_of 0 (run s [EvMessage payload_B; EvMessage payload_A])
  = Some (Fulfilled 1)
  ∧ promise_of 1 (run s [EvMessage payload_B; EvMessage payload_A])
    = Some (Fulfilled 2).
Proof.
  intros s.
  assert (Hl0 : 0 ∈ listeners s) by by_computation.
  assert (Hl1 : 1 ∈ listeners s) by by_computation.
  assert (Hc0 : calls s !! 0 = Some call_A) by by_evaluation.
  assert (Hc1 : calls s !! 1 = Some call_B) by by_evaluation.
  assert (Hp0 : parse call_A payload_A = Normal 1) by by_evaluation.
  assert (Hm0 : match_ call_A 1 = true) by by_evaluation.
  assert (Hp1 : parse call_B payload_B = Normal 2) by by_evaluation.
  assert (Hm1 : match_ call_B 2 = true) by by_evaluation.
  assert (Hpe0 : resultPromise call_A = Pending) by by_evaluation.
  assert (Hpe1 : resultPromise call_B = Pending) by by_evaluation.
  assert (Hd0 : ∀ v, parse call_A payload_B = Normal v → match_ call_A v = false).
  { intros v Hv. vm_compute in Hv. injection Hv as <-. by_evaluation. }
  assert (Hd1 : ∀ v, parse call_B payload_A = Normal v → match_ call_B v = false).
  { intros v Hv. vm_compute in Hv. injection Hv as <-. by_evaluation. }
  assert (Hno : ∀ c cl e, c ∈ listeners s → calls s !! c = Some cl →
                  parse cl payload_A ≠ Throw e ∧ parse cl payload_B ≠ Throw e).
  { intros c cl e Hin Hc.
    destruct (two_calls_cases c cl Hin Hc) as [->| ->];
      split; intros H; vm_compute in H; discriminate H. }
  exact (proj2 (two_calls_resolve_in_either_order two_calls 0 1 call_A call_B
                  payload_A payload_B 1 2 Hl0 Hl1 Hc0 Hc1 Hpe0 Hpe1 Hp0 Hm0
                  Hp1 Hm1 Hd0 Hd1 Hno)).
Defined.

Lemma exception_ends_the_dispatch_witness :
  let s := run constructor two_calls in
  (listeners s = [] ++ 0 :: [1] ∧ calls s !! 0 = Some call_A
   ∧ parse call_A [] = Throw (new_Error "empty datagram") ∧ 1 ∈ [1])
  ∧ calls (step s (EvMessage [])) !! 1 = calls s !! 1
  ∧ 1 ∈ listeners (step s (EvMessage [])).
Proof.
  intros s.
  assert (H1 : listeners s = [] ++ 0 :: [1]) by by_evaluation.
  assert (H2 : calls s !! 0 = Some call_A) by by_evaluation.
  assert (H3 : parse call_A [] = Throw (new_Error "empty datagram"))
    by by_evaluation.
  assert (H4 : 1 ∈ [1]) by by_computation.
  split; [exact (conj H1 (conj H2 (conj H3 H4)))|].
  destruct (exception_ends_the_dispatch two_calls [] [1] 0 call_A [] _ 1
              H1 H2 H3 H4) as (Ha & Hb & _).
  exact (conj Ha Hb).
Defined.

Lemma send_on_connected_socket_witness :
  let s := run constructor one_call in
  _isConnected s = true
  ∧ connect_calls (send payload_B parseEcho (has_id 2) None s) = connect_calls s
  ∧ sent (send payload_B parseEcho (has_id 2) None s) = sent s ++ [payload_B].
Proof.
  intros s.
  assert (H1 : _isConnected s = true) by by_evaluation.
  split; [exact H1|].
  destruct (send_on_connected_socket one_call payload_B parseEcho (has_id 2)
              None H1) as (Ha & Hb & _).
  exact (conj Ha Hb).
Defined.
